(** * Mini Search Engine For Articles: the engine of [app.js], embedded and verified

    The development follows [app.js] method by method.  Conventions of the
    embedding:

    - Text is a [string] whose characters are the code units below 256
      (Latin-1).  There [toLowerCase] works character by character, on
      ['A'..'Z'] and on the accented capitals, and the class [\s] is tab, line
      feed, vertical tab, form feed, carriage return, space and no-break space.
    - A number that the program stores (identifier, counter, score) is an
      integer; the counter can also be [-Infinity], which is what [Math.max]
      returns on no arguments.  Integers are exact, as doubles are up to 2^53.
    - [this.index.keywords] and [this.index.tags] are plain objects created by
      [{}]: a finite map of own properties in front of [Object.prototype].
    - [createdAt] is kept as the instant it denotes, in milliseconds since the
      epoch; [toISOString] and the [Date] constructor are inverse to each other
      on instants, and subtracting two [Date]s subtracts their instants.
    - A method is a computation over the world (the engine object and the
      articles file) that completes normally, throws, or leaves the fragment of
      JavaScript that is modelled here ([Beyond]): a search term that holds a
      regular-expression syntax character, a path identifier beyond 2^53. *)

From Stdlib Require Import ZArith Ascii String List Permutation Sorted Lia.
From stdpp Require Import base option list gmap strings.

Local Open Scope string_scope.
Local Open Scope Z_scope.
Local Open Scope list_scope.

(** ** Strings *)

(** The capitals are ['A'..'Z'] (65..90) and 192..222 without the
    multiplication sign (215); the small letter is 32 further. *)
Definition lower_char (c : ascii) : ascii :=
  let n := nat_of_ascii c in
  if ((65 <=? n) && (n <=? 90) || (192 <=? n) && (n <=? 222) && negb (n =? 215))%nat
  then ascii_of_nat (n + 32)
  else c.

Fixpoint toLowerCase (s : string) : string :=
  match s with
  | EmptyString => EmptyString
  | String c s' => String (lower_char c) (toLowerCase s')
  end.

(** The character class [\s], which is also the white space that [parseInt]
    skips. *)
Definition is_space (c : ascii) : bool :=
  let n := nat_of_ascii c in
  ((9 <=? n) && (n <=? 13) || (n =? 32) || (n =? 160))%nat.

(** [s.split(/\s+/)]: [cur] is the token being read, most recent character
    first; [in_sep] tells that the previous character was part of a separator,
    which the greedy [\s+] extends.  A separator at either end of the text
    leaves an empty token there, and the empty text splits into one empty
    token. *)
Fixpoint split_from (cur : list ascii) (in_sep : bool) (s : list ascii) : list string :=
  match s with
  | [] => [string_of_list_ascii (rev cur)]
  | c :: s' =>
      if is_space c then
        if in_sep then split_from [] true s'
        else string_of_list_ascii (rev cur) :: split_from [] true s'
      else split_from (c :: cur) false s'
  end.

Definition split_whitespace (s : string) : list string :=
  split_from [] false (list_ascii_of_string s).

(** ** Regular expressions built from a search term *)

(** The syntax characters of a pattern; a term free of them is a pattern that
    matches exactly its own text. *)
Definition syntax_char (c : ascii) : bool :=
  match String.index 0 (String c EmptyString) "^$\.*+?()[]{}|" with
  | Some _ => true
  | None => false
  end.

Fixpoint literal_pattern (p : string) : bool :=
  match p with
  | EmptyString => true
  | String c p' => negb (syntax_char c) && literal_pattern p'
  end.

(** [(s.match(new RegExp(p, 'g')) || []).length] for a literal [p].  The global
    match restarts at [lastIndex], the end of the previous match, moved one
    further after an empty match; [skip] is the distance from the current
    position up to [lastIndex].  The empty pattern therefore matches once at
    every position, the end of the text included. *)
Fixpoint count_matches (p : string) (skip : nat) (s : string) : nat :=
  match s with
  | EmptyString =>
      match skip, p with
      | O, EmptyString => 1
      | _, _ => 0
      end
  | String _ s' =>
      match skip with
      | O => if String.prefix p s
             then S (count_matches p (Nat.pred (String.length p)) s')
             else count_matches p 0 s'
      | S k => count_matches p k s'
      end
  end%nat.

(** ** Values held by the engine *)

(** A JavaScript number, as far as the program produces one. *)
Inductive number : Type :=
| Int (z : Z)
| NegInfinity.

(** What the [id] property of an article holds: a number, or [null] once an
    infinite identifier went through the articles file. *)
Inductive idval : Type :=
| Num (n : number)
| Null.

#[global] Instance number_eq_dec : EqDecision number.
Proof. solve_decision. Defined.

#[global] Instance idval_eq_dec : EqDecision idval.
Proof. solve_decision. Defined.

Module Article.
Record t : Type := mk {
  id : idval;
  title : string;
  content : string;
  tags : list string;
  createdAt : Z
}.
End Article.

#[global] Instance article_eq_dec : EqDecision Article.t.
Proof. solve_decision. Defined.

(** A search result: the spread copy of an article with its score. *)
Record scored : Type := mkScored {
  doc : Article.t;
  relevanceScore : nat
}.

Module Index.
Record t : Type := mk {
  keywords : gmap string (list idval);
  tags : gmap string (list idval)
}.
End Index.

Record engine : Type := mkEngine {
  articles : list Article.t;
  index : Index.t;
  nextId : number
}.

(** The articles file, when it holds a JSON document: an array of objects.
    JSON has no infinite numbers, so an identifier is an integer or [null]. *)
Module Json.
Record article : Type := mk {
  id : option Z;
  title : string;
  content : string;
  tags : list string;
  createdAt : Z
}.
End Json.

Record world : Type := mkWorld {
  this : engine;
  file : option (list Json.article)
}.

(** ** Completions and the method monad *)

Inductive exn : Type :=
| TypeError
| IOError.

Inductive completion (A : Type) : Type :=
| Normal (a : A)
| Throw (e : exn)
| Beyond.

Arguments Normal {A} a.
Arguments Throw {A} e.
Arguments Beyond {A}.

#[global] Instance completion_ret : MRet completion := λ A a, Normal a.

#[global] Instance completion_bind : MBind completion := λ A B f c,
  match c with
  | Normal a => f a
  | Throw e => Throw e
  | Beyond => Beyond
  end.

#[global] Instance completion_fmap : FMap completion := λ A B f c,
  match c with
  | Normal a => Normal (f a)
  | Throw e => Throw e
  | Beyond => Beyond
  end.

Definition M (A : Type) : Type := world → completion A * world.

#[global] Instance M_ret : MRet M := λ A a w, (Normal a, w).

#[global] Instance M_bind : MBind M := λ A B f m w,
  match m w with
  | (Normal a, w') => f a w'
  | (Throw e, w') => (Throw e, w')
  | (Beyond, w') => (Beyond, w')
  end.

Definition get_this : M engine := λ w, (Normal (this w), w).
Definition set_this (e : engine) : M unit := λ w, (Normal tt, mkWorld e (file w)).
Definition lift {A} (c : completion A) : M A := λ w, (c, w).

(** [try { body } catch (error) { console.log(...) }]: the state reached when
    the exception was thrown stays. *)
Definition try_catch (body : M unit) : M unit := λ w,
  match body w with
  | (Throw _, w') => (Normal tt, w')
  | r => r
  end.

(** [l.forEach(f)] *)
Fixpoint forEach {A} (l : list A) (f : A → M unit) : M unit :=
  match l with
  | [] => mret tt
  | x :: l' => f x ;; forEach l' f
  end.

(** [l.map(f)] for a callback that may not return. *)
Fixpoint mapM {A B} (f : A → completion B) (l : list A) : completion (list B) :=
  match l with
  | [] => mret []
  | x :: l' => y ← f x; ys ← mapM f l'; mret (y :: ys)
  end.

(** ** Objects used as maps *)

(** The property names of [Object.prototype]; each holds a function, or the
    prototype object itself for [__proto__]: a truthy value that is no array. *)
Definition Object_prototype_names : list string :=
  [ "constructor"; "__defineGetter__"; "__defineSetter__"; "hasOwnProperty";
    "__lookupGetter__"; "__lookupSetter__"; "isPrototypeOf";
    "propertyIsEnumerable"; "toString"; "valueOf"; "__proto__";
    "toLocaleString" ].

Inductive property : Type :=
| Own (ids : list idval)
| Inherited
| Undefined.

(** [o[k]] for an object [o] made by [{}] whose own properties are arrays. *)
Definition get_property (o : gmap string (list idval)) (k : string) : property :=
  match o !! k with
  | Some ids => Own ids
  | None => if bool_decide (k ∈ Object_prototype_names) then Inherited else Undefined
  end.

(** [if (!o[k]) { o[k] = []; }  o[k].push(i);]  An array is truthy, also when
    empty; an inherited property is truthy and has no [push]. *)
Definition push_bucket (o : gmap string (list idval)) (k : string) (i : idval)
  : completion (gmap string (list idval)) :=
  match get_property o k with
  | Own ids => Normal (<[k := ids ++ [i]]> o)
  | Undefined => Normal (<[k := [i]]> o)
  | Inherited => Throw TypeError
  end.

(** ** The engine *)

Definition new_MiniSearchEngine : engine :=
  mkEngine [] (Index.mk ∅ ∅) (Int 1).

Definition searchText (a : Article.t) : string :=
  toLowerCase (Article.title a +:+ " " +:+ Article.content a).

(** [calculateRelevance(article, searchTerms)] *)
Fixpoint sum_term_counts (text : string) (searchTerms : list string) (score : nat)
  : completion nat :=
  match searchTerms with
  | [] => Normal score
  | term :: rest =>
      let p := toLowerCase term in
      if literal_pattern p
      then sum_term_counts text rest (score + count_matches p 0 text)%nat
      else Beyond
  end.

Definition calculateRelevance (a : Article.t) (searchTerms : list string) : completion nat :=
  sum_term_counts (searchText a) searchTerms 0%nat.

Definition index_keyword (i : idval) (keyword : string) : M unit :=
  e ← get_this;
  o ← lift (push_bucket (Index.keywords (index e)) keyword i);
  set_this (mkEngine (articles e) (Index.mk o (Index.tags (index e))) (nextId e)).

Definition index_tag (i : idval) (tag : string) : M unit :=
  e ← get_this;
  o ← lift (push_bucket (Index.tags (index e)) (toLowerCase tag) i);
  set_this (mkEngine (articles e) (Index.mk (Index.keywords (index e)) o) (nextId e)).

Definition article_keywords (a : Article.t) : list string :=
  split_whitespace (searchText a).

(** [indexArticle(article)] *)
Definition indexArticle (a : Article.t) : M unit :=
  forEach (article_keywords a) (index_keyword (Article.id a)) ;;
  forEach (Article.tags a) (index_tag (Article.id a)).

Definition number_succ (n : number) : number :=
  match n with
  | Int z => Int (z + 1)
  | NegInfinity => NegInfinity
  end.

(** [JSON.stringify] and [JSON.parse] on an article. *)
Definition stringify_id (i : idval) : option Z :=
  match i with
  | Num (Int z) => Some z
  | Num NegInfinity => None
  | Null => None
  end.

Definition parse_id (j : option Z) : idval :=
  match j with
  | Some z => Num (Int z)
  | None => Null
  end.

Definition stringify_article (a : Article.t) : Json.article :=
  Json.mk (stringify_id (Article.id a)) (Article.title a) (Article.content a)
          (Article.tags a) (Article.createdAt a).

Definition parse_article (j : Json.article) : Article.t :=
  Article.mk (parse_id (Json.id j)) (Json.title j) (Json.content j)
             (Json.tags j) (Json.createdAt j).

(** [persistArticles()]: the document is built from [this.articles] at the
    call; a failed write ([fs_ok = false]) is caught and logged. *)
Definition persistArticles (fs_ok : bool) : M unit := λ w,
  let data := stringify_article <$> articles (this w) in
  (Normal tt, if fs_ok then mkWorld (this w) (Some data) else w).

(** [addArticle(title, content, tags = [])]; [now] is the clock read by
    [new Date()]. *)
Definition addArticle (title content : string) (tags : option (list string))
    (now : Z) (fs_ok : bool) : M Article.t :=
  e ← get_this;
  let article := Article.mk (Num (nextId e)) title content (default [] tags) now in
  set_this (mkEngine (articles e ++ [article]) (index e) (number_succ (nextId e))) ;;
  indexArticle article ;;
  persistArticles fs_ok ;;
  mret article.

(** [ToNumber] on what an identifier holds; [Math.max(...l)], which starts
    from [-Infinity]. *)
Definition ToNumber (i : idval) : number :=
  match i with
  | Num n => n
  | Null => Int 0
  end.

Definition number_max (a b : number) : number :=
  match a, b with
  | Int x, Int y => Int (Z.max x y)
  | NegInfinity, _ => b
  | _, NegInfinity => a
  end.

Definition Math_max (l : list number) : number :=
  foldr number_max NegInfinity l.

Definition readFile : M (list Json.article) := λ w,
  match file w with
  | Some data => (Normal data, w)
  | None => (Throw IOError, w)
  end.

(** [loadArticles()] *)
Definition loadArticles : M unit :=
  try_catch (
    data ← readFile;
    e ← get_this;
    set_this (mkEngine (parse_article <$> data) (index e) (nextId e)) ;;
    e ← get_this;
    set_this (mkEngine (articles e) (index e)
                (number_succ (Math_max ((λ a, ToNumber (Article.id a)) <$> articles e)))) ;;
    e ← get_this;
    set_this (mkEngine (articles e) (Index.mk ∅ ∅) (nextId e)) ;;
    e ← get_this;
    forEach (articles e) indexArticle).

(** A [Set] of identifiers, in insertion order. *)
Definition Set_add (s : list idval) (i : idval) : list idval :=
  if bool_decide (i ∈ s) then s else s ++ [i].

(** [[...(o[k] || [])]]: an inherited property is truthy and not iterable. *)
Definition spread_or_empty (p : property) : completion (list idval) :=
  match p with
  | Own ids => Normal ids
  | Undefined => Normal []
  | Inherited => Throw TypeError
  end.

(** The [forEach] over the search terms that fills [matchedIds]. *)
Fixpoint collect_matches (searchTerms : list string) (matchedIds : list idval)
  : M (list idval) :=
  match searchTerms with
  | [] => mret matchedIds
  | term :: rest =>
      e ← get_this;
      keywordMatches ← lift (spread_or_empty (get_property (Index.keywords (index e)) term));
      tagMatches ← lift (spread_or_empty (get_property (Index.tags (index e)) term));
      collect_matches rest (foldl Set_add matchedIds (keywordMatches ++ tagMatches))
  end.

(** [l.sort(cmp)].  The sort is stable, and for a comparator that orders by a
    key the sorted array is determined by that: each element goes in front of
    the sorted rest, behind the elements that must precede it. *)
Fixpoint sort_insert {A} (cmp : A → A → Z) (x : A) (l : list A) : list A :=
  match l with
  | [] => [x]
  | y :: l' => if cmp x y <=? 0 then x :: l else y :: sort_insert cmp x l'
  end.

Definition Array_sort {A} (cmp : A → A → Z) (l : list A) : list A :=
  foldr (sort_insert cmp) [] l.

Definition by_relevance (a b : scored) : Z :=
  Z.of_nat (relevanceScore b) - Z.of_nat (relevanceScore a).

Definition by_date (a b : scored) : Z :=
  Article.createdAt (doc b) - Article.createdAt (doc a).

Definition score_article (searchTerms : list string) (a : Article.t) : completion scored :=
  score ← calculateRelevance a searchTerms;
  mret (mkScored a score).

Definition sort_results (sortBy : string) (results : list scored) : list scored :=
  if decide (sortBy = "relevance") then Array_sort by_relevance results
  else if decide (sortBy = "date") then Array_sort by_date results
  else results.

(** [searchArticles(query, sortBy)] *)
Definition searchArticles (query sortBy : string) : M (list scored) :=
  let searchTerms := split_whitespace (toLowerCase query) in
  matchedIds ← collect_matches searchTerms [];
  e ← get_this;
  results ← lift (mapM (score_article searchTerms)
                       (filter (λ a, Article.id a ∈ matchedIds) (articles e)));
  mret (sort_results sortBy results).

(** ** [parseInt] *)

Inductive parsed : Type :=
| NaN
| Parsed (z : Z).

Fixpoint trim_start (s : string) : string :=
  match s with
  | EmptyString => s
  | String c s' => if is_space c then trim_start s' else s
  end.

Definition digit_value (radix : Z) (c : ascii) : option Z :=
  let n := Z.of_nat (nat_of_ascii c) in
  let v := if (48 <=? n) && (n <=? 57) then n - 48
           else if (97 <=? n) && (n <=? 122) then n - 87
           else if (65 <=? n) && (n <=? 90) then n - 55
           else radix in
  if v <? radix then Some v else None.

(** The value of the longest prefix of digits; [None] while none was read. *)
Fixpoint read_digits (radix : Z) (acc : option Z) (s : string) : option Z :=
  match s with
  | EmptyString => acc
  | String c s' =>
      match digit_value radix c with
      | Some d => read_digits radix (Some (radix * default 0 acc + d)) s'
      | None => acc
      end
  end.

Definition safe_integer (z : Z) : bool := Z.abs z <=? 9007199254740991.

Definition strip_sign (s : string) : Z * string :=
  match s with
  | String "-" r => (-1, r)
  | String "+" r => (1, r)
  | _ => (1, s)
  end.

Definition strip_hex_prefix (s : string) : Z * string :=
  match s with
  | String "0" (String "x" r) => (16, r)
  | String "0" (String "X" r) => (16, r)
  | _ => (10, s)
  end.

(** [parseInt(s)], no radix given. *)
Definition parseInt (s : string) : completion parsed :=
  let '(sign, s1) := strip_sign (trim_start s) in
  let '(radix, s2) := strip_hex_prefix s1 in
  match read_digits radix None s2 with
  | None => Normal NaN
  | Some v => if safe_integer v then Normal (Parsed (sign * v)) else Beyond
  end.

(** [String(n)] for an integer: its decimal digits, most significant first. *)
Definition digit_char (d : Z) : ascii := ascii_of_nat (48 + Z.to_nat d).

Fixpoint decimal_digits (fuel : nat) (n : Z) (acc : string) : string :=
  match fuel with
  | O => acc
  | S fuel' =>
      let acc' := String (digit_char (n mod 10)) acc in
      if n / 10 =? 0 then acc' else decimal_digits fuel' (n / 10) acc'
  end.

Definition Number_toString (n : parsed) : string :=
  match n with
  | NaN => "NaN"
  | Parsed z =>
      let digits := decimal_digits (S (Z.to_nat (Z.log2 (Z.abs z)))) (Z.abs z) "" in
      if z <? 0 then String "-" digits else digits
  end.

(** [article.id === n] *)
Definition strict_equal (i : idval) (n : parsed) : bool :=
  match i, n with
  | Num (Int x), Parsed y => x =? y
  | _, _ => false
  end.

(** [getArticle(id)]; the handler passes a number, which [parseInt] first
    turns into text. *)
Definition getArticle (id : parsed) : M (option Article.t) :=
  e ← get_this;
  n ← lift (parseInt (Number_toString id));
  mret (List.find (λ a, strict_equal (Article.id a) n) (articles e)).

(** ** The routes *)

Inductive payload : Type :=
| ErrorJson (error : string)
| ArticleJson (a : Article.t)
| ResultsJson (results : list scored).

Record response : Type := mkResponse {
  status : Z;
  body : payload
}.

Module Body.
Record t : Type := mk {
  title : option string;
  content : option string;
  tags : option (list string)
}.
End Body.

(** [!v] for a property that is a string when present: absent or empty. *)
Definition falsy (v : option string) : bool :=
  match v with
  | None => true
  | Some EmptyString => true
  | Some _ => false
  end.

(** [app.post('/articles', ...)]; behind the guard both properties are
    present. *)
Definition post_articles (b : Body.t) (now : Z) (fs_ok : bool) : M response :=
  if falsy (Body.title b) || falsy (Body.content b)
  then mret (mkResponse 400 (ErrorJson "Title and content are required"))
  else
    article ← addArticle (default "" (Body.title b)) (default "" (Body.content b))
                         (Body.tags b) now fs_ok;
    mret (mkResponse 201 (ArticleJson article)).

(** [app.get('/articles/search', ...)]; [q] and [sort] are the query
    parameters, [sort] defaulting to ['relevance']. *)
Definition get_articles_search (q sort : option string) : M response :=
  if falsy q
  then mret (mkResponse 400 (ErrorJson "Search query is required"))
  else
    results ← searchArticles (default "" q) (default "relevance" sort);
    mret (mkResponse 200 (ResultsJson results)).

(** [app.get('/articles/:id', ...)]; [id] is the path segment. *)
Definition get_articles_id (id : string) : M response :=
  n ← lift (parseInt id);
  article ← getArticle n;
  match article with
  | None => mret (mkResponse 404 (ErrorJson "Article not found"))
  | Some a => mret (mkResponse 200 (ArticleJson a))
  end.

(** The global error handler answers for a handler that threw. *)
Definition express (handler : M response) : M response := λ w,
  match handler w with
  | (Throw _, w') => (Normal (mkResponse 500 (ErrorJson "Something went wrong!")), w')
  | r => r
  end.

(** ** Running the program *)

(** The world when the process starts: a new engine and the file as found. *)
Definition fresh (f : option (list Json.article)) : world :=
  mkWorld new_MiniSearchEngine f.

Definition exec {A} (m : M A) (w : world) : world := snd (m w).
Definition eval {A} (m : M A) (w : world) : completion A := fst (m w).

Inductive request : Type :=
| PostArticle (b : Body.t) (now : Z) (fs_ok : bool)
| SearchArticles (q sort : option string)
| GetArticle (id : string).

Definition handle (r : request) : M response :=
  express match r with
          | PostArticle b now fs_ok => post_articles b now fs_ok
          | SearchArticles q sort => get_articles_search q sort
          | GetArticle id => get_articles_id id
          end.

(** The worlds the process goes through: it constructs the engine and loads
    the file as found, then answers requests one after the other. *)
Inductive reachable : world → Prop :=
| reachable_start (f : option (list Json.article)) :
    reachable (exec loadArticles (fresh f))
| reachable_request (r : request) (w : world) :
    reachable w → reachable (exec (handle r) w).

(** A sequence of calls of [addArticle], each with its arguments, the clock
    and the fate of its write; the completions are kept in call order. *)
Record add_call : Type := mkCall {
  call_title : string;
  call_content : string;
  call_tags : option (list string);
  call_now : Z;
  call_fs_ok : bool
}.

Definition call_addArticle (c : add_call) : M Article.t :=
  addArticle (call_title c) (call_content c) (call_tags c) (call_now c) (call_fs_ok c).

Fixpoint run_adds (calls : list add_call) (w : world) : list (completion Article.t) :=
  match calls with
  | [] => []
  | c :: rest => eval (call_addArticle c) w :: run_adds rest (exec (call_addArticle c) w)
  end.

Definition returned_id (r : completion Article.t) : option idval :=
  match r with
  | Normal a => Some (Article.id a)
  | _ => None
  end.

Definition succeeded {A} (r : completion A) : bool :=
  match r with
  | Normal _ => true
  | _ => false
  end.

(** * The vocabulary of the properties *)

Definition query_tokens (query : string) : list string :=
  split_whitespace (toLowerCase query).

(** The array under an own key of an index mapping, empty when there is none:
    the token's bucket. *)
Definition bucket (o : gmap string (list idval)) (k : string) : list idval :=
  default [] (o !! k).

(** [k] is a key of the mapping [o] and [i] is present in its bucket. *)
Definition indexed (o : gmap string (list idval)) (k : string) (i : idval) : Prop :=
  ∃ ids, o !! k = Some ids ∧ i ∈ ids.

(** The index holds an article in full: each of its keywords and each of its
    lowercased tags is a key of the corresponding mapping, with the article's
    identifier in the bucket. *)
Definition fully_indexed (e : engine) (a : Article.t) : Prop :=
  (∀ keyword, keyword ∈ article_keywords a →
     indexed (Index.keywords (index e)) keyword (Article.id a))
  ∧ (∀ tag, tag ∈ Article.tags a →
     indexed (Index.tags (index e)) (toLowerCase tag) (Article.id a)).

(** Every identifier in a bucket is the identifier of a stored article. *)
Definition index_within_store (e : engine) : Prop :=
  ∀ k i, i ∈ bucket (Index.keywords (index e)) k ∨ i ∈ bucket (Index.tags (index e)) k →
         i ∈ Article.id <$> articles e.

(** A key that [Object.prototype] does not answer for. *)
Definition plain_key (k : string) : Prop := k ∉ Object_prototype_names.

(** ** Occurrences of a token in a text *)

(** The positions of [s], numbered from [i], at which [p] occurs; they may
    overlap. *)
Fixpoint occurrences_from (i : nat) (p s : string) : list nat :=
  match s with
  | EmptyString => if String.prefix p s then [i] else []
  | String _ s' =>
      (if String.prefix p s then [i] else []) ++ occurrences_from (S i) p s'
  end.

Definition occurrences (p s : string) : list nat := occurrences_from 0 p s.

(** The occurrences met by a scan from left to right that, having taken an
    occurrence, resumes at its end (one position further for the empty token):
    no two of them overlap.  [from] is where the scan resumes. *)
Fixpoint disjoint_from (width from : nat) (positions : list nat) : list nat :=
  match positions with
  | [] => []
  | i :: rest =>
      if (from <=? i)%nat
      then i :: disjoint_from width (i + Nat.max width 1) rest
      else disjoint_from width from rest
  end.

Definition disjoint_occurrences (p s : string) : list nat :=
  disjoint_from (String.length p) 0 (occurrences p s).

(** The score as the specification words it: all occurrences count. *)
Definition overlapping_score (a : Article.t) (tokens : list string) : nat :=
  sum_list ((λ t, length (occurrences t (searchText a))) <$> tokens).

(** The score with occurrences taken from left to right without overlap. *)
Definition disjoint_score (a : Article.t) (tokens : list string) : nat :=
  sum_list ((λ t, length (disjoint_occurrences t (searchText a))) <$> tokens).

(** ** Shapes of a query and of a path segment *)

Definition starts_with_space (s : string) : bool :=
  match s with
  | EmptyString => false
  | String c _ => is_space c
  end.

Fixpoint ends_with_space (s : string) : bool :=
  match s with
  | EmptyString => false
  | String c EmptyString => is_space c
  | String _ s' => ends_with_space s'
  end.

Fixpoint has_space (s : string) : bool :=
  match s with
  | EmptyString => false
  | String c s' => is_space c || has_space s'
  end.


Definition not_found : response := mkResponse 404 (ErrorJson "Article not found").

(** ** Indexing, seen from the index alone *)

(** The loops of [indexArticle] read and write nothing but the mapping they
    fill.  [push_each o ks i] is the loop [ks.forEach(k => ... o[k].push(i))]
    on the mapping [o]: how it completes, and the mapping it leaves, which
    holds the pushes made before a throw. *)
Fixpoint push_each (o : gmap string (list idval)) (ks : list string) (i : idval)
  : completion unit * gmap string (list idval) :=
  match ks with
  | [] => (Normal tt, o)
  | k :: rest =>
      match push_bucket o k i with
      | Normal o' => push_each o' rest i
      | Throw e => (Throw e, o)
      | Beyond => (Beyond, o)
      end
  end.

Definition index_with (a : Article.t) (ix : Index.t) : completion unit * Index.t :=
  match push_each (Index.keywords ix) (article_keywords a) (Article.id a) with
  | (Normal _, o1) =>
      let '(c, o2) := push_each (Index.tags ix) (toLowerCase <$> Article.tags a) (Article.id a) in
      (c, Index.mk o1 o2)
  | (c, o1) => (c, Index.mk o1 (Index.tags ix))
  end.

(** [l.forEach(article => this.indexArticle(article))] on the index. *)
Fixpoint index_all (l : list Article.t) (ix : Index.t) : completion unit * Index.t :=
  match l with
  | [] => (Normal tt, ix)
  | a :: rest =>
      match index_with a ix with
      | (Normal _, ix') => index_all rest ix'
      | r => r
      end
  end.

Definition set_index (w : world) (ix : Index.t) : world :=
  mkWorld (mkEngine (articles (this w)) ix (nextId (this w))) (file w).


(** How often the key [k] occurs in a list of keys. *)
Definition count_key (k : string) (ks : list string) : nat :=
  length (filter (λ x, x = k) ks).

(** A mapping as the pushes leave it: no own key is a property name of
    [Object.prototype], and no bucket is empty. *)
Definition tidy (o : gmap string (list idval)) : Prop :=
  ∀ k ids, o !! k = Some ids → plain_key k ∧ ids ≠ [].

Definition tidy_index (ix : Index.t) : Prop :=
  tidy (Index.keywords ix) ∧ tidy (Index.tags ix).

(** The identifiers a bucket holds when the index has been filled from the
    articles [l] in order: each article's identifier, once for every time the
    key occurs among the article's keys. *)
Definition postings (keys : Article.t → list string) (k : string) (l : list Article.t)
  : list idval :=
  concat ((λ a, replicate (count_key k (keys a)) (Article.id a)) <$> l).

Definition lowercase_tags (a : Article.t) : list string := toLowerCase <$> Article.tags a.

(** The index is exactly what indexing the stored articles in order gives. *)
Definition exact_index (e : engine) : Prop :=
  ∀ k, bucket (Index.keywords (index e)) k = postings article_keywords k (articles e)
       ∧ bucket (Index.tags (index e)) k = postings lowercase_tags k (articles e).

(** Whether a request is an add that passes the guard of its handler. *)
Definition accepted_add (r : request) : bool :=
  match r with
  | PostArticle b _ _ => negb (falsy (Body.title b) || falsy (Body.content b))
  | _ => false
  end.


#[global] Instance plain_key_dec (k : string) : Decision (plain_key k).
Proof. unfold plain_key. apply _. Defined.

(** The article [addArticle] makes from its arguments in the world [w]. *)
Definition new_article (title content : string) (tags : option (list string)) (now : Z)
    (w : world) : Article.t :=
  Article.mk (Num (nextId (this w))) title content (default [] tags) now.

(** The keys an article is indexed under: its keywords, then its lowercased
    tags. *)
Definition index_keys (a : Article.t) : list string :=
  article_keywords a ++ lowercase_tags a.

(** The process answering a list of requests, one after the other. *)
Definition serve (rs : list request) (w : world) : world :=
  foldl (λ w r, exec (handle r) w) w rs.


(** The identifiers of the stored articles are 1, 2, ..., n in store order,
    and the counter is n + 1. *)
Definition sequential_ids (e : engine) : Prop :=
  nextId e = Int (Z.of_nat (length (articles e)) + 1)
  ∧ Article.id <$> articles e = (λ z, Num (Int z)) <$> seqZ 1 (Z.of_nat (length (articles e))).

(** The article at the place [z], counting from 1. *)
Definition nth_article (z : Z) (l : list Article.t) : option Article.t :=
  if decide (1 ≤ z) then l !! Z.to_nat (z - 1) else None.


(** The answer of the global error handler. *)
Definition internal_error : response := mkResponse 500 (ErrorJson "Something went wrong!").

(** The answers to a list of requests, in order. *)
Fixpoint answers (rs : list request) (w : world) : list (completion response) :=
  match rs with
  | [] => []
  | r :: rest => eval (handle r) w :: answers rest (exec (handle r) w)
  end.

(** * Examples *)

Definition cats_article : Article.t :=
  Article.mk (Num (Int 1)) "Cats and Dogs" "Cats are great pets" ["pets"; "animals"] 1000.

Definition dog_article : Article.t :=
  Article.mk (Num (Int 2)) "Dog Training" "Training your dog" ["pets"; "training"] 2000.

(** The two articles of the running example, added to an engine that found no
    file. *)
Definition example_world : world :=
  exec (addArticle "Dog Training" "Training your dog" (Some ["pets"; "training"]) 2000 true)
   (exec (addArticle "Cats and Dogs" "Cats are great pets" (Some ["pets"; "animals"]) 1000 true)
      (fresh None)).

Definition ana_article : Article.t :=
  Article.mk (Num (Int 1)) "Ana eats" "a banana" [] 1000.

(** An article in which a token overlaps itself: "ana" in "banana". *)
Definition ana_world : world :=
  exec (addArticle "Ana eats" "a banana" None 1000 true) (fresh None).

Definition short_dog_article : Article.t :=
  Article.mk (Num (Int 1)) "Dog dog" "x" [] 1000.

Definition long_dog_article : Article.t :=
  Article.mk (Num (Int 2)) "Dog" "a long text about many other things" [] 2000.

Definition spaced_cat_article : Article.t :=
  Article.mk (Num (Int 3)) " Cat" "naps" [] 3000.

(** Three articles for queries with a space in front: two about dogs, a short
    one and a long one, and one whose title begins with a space. *)
Definition spaced_world : world :=
  exec (addArticle " Cat" "naps" None 3000 true)
   (exec (addArticle "Dog" "a long text about many other things" None 2000 true)
     (exec (addArticle "Dog dog" "x" None 1000 true) (fresh None))).

(** A request whose title begins with a property name of
    [Object.prototype], and the article it stores. *)
Definition constructor_article : Article.t :=
  Article.mk (Num (Int 1)) "Constructor injection" "explained" ["patterns"] 1000.

Definition constructor_body : Body.t :=
  Body.mk (Some "Constructor injection") (Some "explained") (Some ["patterns"]).

Definition fish_body : Body.t := Body.mk (Some "Fish") (Some "Fish swim") None.

Definition fish_article : Article.t := Article.mk (Num (Int 3)) "Fish" "Fish swim" [] 3000.

(** The two requests of the running example. *)
Definition example_requests : list request :=
  [ PostArticle (Body.mk (Some "Cats and Dogs") (Some "Cats are great pets")
                   (Some ["pets"; "animals"])) 1000 true;
    PostArticle (Body.mk (Some "Dog Training") (Some "Training your dog")
                   (Some ["pets"; "training"])) 2000 true ].

(** * Properties *)

(** ** Running a method *)

Ltac unfold_M :=
  unfold exec, eval, mbind, M_bind, mret, M_ret, lift, get_this, set_this in *;
  simpl in *.

Lemma collect_matches_frame (searchTerms : list string) (matchedIds : list idval) (w : world) :
  exec (collect_matches searchTerms matchedIds) w = w.
Proof.
  revert matchedIds; induction searchTerms as [|term rest IH]; intros matchedIds.
  - reflexivity.
  - unfold exec in *; simpl; unfold_M.
    destruct (spread_or_empty (get_property (Index.keywords (index (this w))) term));
      simpl; try reflexivity.
    destruct (spread_or_empty (get_property (Index.tags (index (this w))) term));
      simpl; try reflexivity.
    apply IH.
Qed.

Lemma searchArticles_world (query sortBy : string) (w : world) :
  exec (searchArticles query sortBy) w = w.
Proof.
  unfold searchArticles.
  pose proof (collect_matches_frame (split_whitespace (toLowerCase query)) [] w) as Hc.
  unfold_M.
  destruct (collect_matches (split_whitespace (toLowerCase query)) [] w) as [[ids| |] w'];
    simpl in *; subst; try reflexivity.
  destruct (mapM _ _); reflexivity.
Qed.

(** C10.  A search leaves the world as it found it, whatever the query and
    the sort key, and also when it throws: the article list, both index
    mappings, the identifier counter and the articles file are the same after
    the call as before.  The results are values of their own, built by the
    spread, so that no stored article gains a [relevanceScore]. *)
Theorem searchArticles_frame (query sortBy : string) (w : world) :
  exec (searchArticles query sortBy) w = w
  ∧ articles (this (exec (searchArticles query sortBy) w)) = articles (this w)
  ∧ index (this (exec (searchArticles query sortBy) w)) = index (this w)
  ∧ nextId (this (exec (searchArticles query sortBy) w)) = nextId (this w).
Proof.
  rewrite searchArticles_world. auto.
Qed.

(** C5.  A request to add an article whose title or content is absent or
    empty is answered 400 with the error "Title and content are required";
    the world is untouched, so no article is created, the identifier counter
    keeps its value and nothing is written. *)
Theorem post_articles_validation (b : Body.t) (now : Z) (fs_ok : bool) (w : world) :
  falsy (Body.title b) = true ∨ falsy (Body.content b) = true →
  express (post_articles b now fs_ok) w
    = (Normal (mkResponse 400 (ErrorJson "Title and content are required")), w)
  ∧ articles (this (exec (express (post_articles b now fs_ok)) w)) = articles (this w)
  ∧ nextId (this (exec (express (post_articles b now fs_ok)) w)) = nextId (this w).
Proof.
  intros H.
  assert (E : post_articles b now fs_ok w
              = (Normal (mkResponse 400 (ErrorJson "Title and content are required")), w)).
  { unfold post_articles.
    destruct H as [-> | ->]; [reflexivity|]. rewrite orb_true_r. reflexivity. }
  unfold exec, express. rewrite E. simpl. auto.
Qed.

Lemma post_articles_validation_witness :
  express (post_articles (Body.mk (Some "") (Some "text") None) 0 true) (fresh None)
    = (Normal (mkResponse 400 (ErrorJson "Title and content are required")), fresh None)
  ∧ articles (this (exec (express (post_articles (Body.mk (Some "") (Some "text") None) 0 true))
                      (fresh None))) = articles (this (fresh None))
  ∧ nextId (this (exec (express (post_articles (Body.mk (Some "") (Some "text") None) 0 true))
                    (fresh None))) = nextId (this (fresh None)).
Proof.
  apply (post_articles_validation (Body.mk (Some "") (Some "text") None) 0 true (fresh None)).
  left. reflexivity.
Defined.

(** ** Indexing keeps the store *)

Lemma forEach_preserves {A} (P : world → Prop) (f : A → M unit) (l : list A) :
  (∀ x w, P w → P (exec (f x) w)) →
  ∀ w, P w → P (exec (forEach l f) w).
Proof.
  intros Hf. induction l as [|x l IH]; intros w Hw.
  - exact Hw.
  - unfold exec in *. simpl. unfold mbind, M_bind.
    specialize (Hf x w Hw).
    destruct (f x w) as [[[]| |] w']; simpl in *; auto.
Qed.

Lemma index_keyword_store (i : idval) (k : string) (w : world) :
  articles (this (exec (index_keyword i k) w)) = articles (this w)
  ∧ nextId (this (exec (index_keyword i k) w)) = nextId (this w)
  ∧ file (exec (index_keyword i k) w) = file w.
Proof.
  unfold index_keyword. unfold_M.
  destruct (push_bucket _ _ _); simpl; auto.
Qed.

Lemma index_tag_store (i : idval) (k : string) (w : world) :
  articles (this (exec (index_tag i k) w)) = articles (this w)
  ∧ nextId (this (exec (index_tag i k) w)) = nextId (this w)
  ∧ file (exec (index_tag i k) w) = file w.
Proof.
  unfold index_tag. unfold_M.
  destruct (push_bucket _ _ _); simpl; auto.
Qed.

Lemma indexArticle_store (a : Article.t) (w : world) :
  articles (this (exec (indexArticle a) w)) = articles (this w)
  ∧ nextId (this (exec (indexArticle a) w)) = nextId (this w)
  ∧ file (exec (indexArticle a) w) = file w.
Proof.
  set (P := λ w', articles (this w') = articles (this w)
                  ∧ nextId (this w') = nextId (this w) ∧ file w' = file w).
  assert (Hk : P (exec (forEach (article_keywords a) (index_keyword (Article.id a))) w)).
  { apply forEach_preserves; [|unfold P; auto].
    intros k w' (H1 & H2 & H3). unfold P.
    destruct (index_keyword_store (Article.id a) k w') as (-> & -> & ->); auto. }
  unfold indexArticle, exec in *. unfold mbind, M_bind.
  destruct (forEach (article_keywords a) _ w) as [[[]| |] w1]; simpl in *; try exact Hk.
  apply (forEach_preserves P); [|exact Hk].
  intros k w' (H1 & H2 & H3). unfold P.
  destruct (index_tag_store (Article.id a) k w') as (-> & -> & ->); auto.
Qed.

Lemma push_bucket_not_beyond (o : gmap string (list idval)) (k : string) (i : idval) :
  push_bucket o k i ≠ Beyond.
Proof. unfold push_bucket. destruct (get_property o k); discriminate. Qed.

Lemma forEach_not_beyond {A} (f : A → M unit) (l : list A) :
  (∀ x w, eval (f x) w ≠ Beyond) → ∀ w, eval (forEach l f) w ≠ Beyond.
Proof.
  intros Hf. induction l as [|x l IH]; intros w.
  - discriminate.
  - unfold eval in *. simpl. unfold mbind, M_bind.
    specialize (Hf x w).
    destruct (f x w) as [[[]| |] w']; simpl in *; auto; discriminate.
Qed.

Lemma indexArticle_not_beyond (a : Article.t) (w : world) :
  eval (indexArticle a) w ≠ Beyond.
Proof.
  unfold indexArticle, eval. unfold mbind, M_bind.
  pose proof (forEach_not_beyond (index_keyword (Article.id a)) (article_keywords a)) as Hk.
  unfold eval in Hk.
  destruct (forEach (article_keywords a) _ w) as [[[]| |] w1] eqn:E; simpl.
  - apply (forEach_not_beyond (index_tag (Article.id a))).
    intros k w'. unfold index_tag. unfold_M.
    pose proof (push_bucket_not_beyond (Index.tags (index (this w'))) (toLowerCase k) (Article.id a)).
    destruct (push_bucket _ _ _); simpl; congruence.
  - discriminate.
  - exfalso. apply (λ H, Hk H w); [|rewrite E; reflexivity].
    intros k w'. unfold index_keyword. unfold_M.
    pose proof (push_bucket_not_beyond (Index.keywords (index (this w'))) k (Article.id a)).
    destruct (push_bucket _ _ _); simpl; congruence.
Qed.

(** What [addArticle] does to the store, whether indexing throws or not. *)
Lemma addArticle_store (title content : string) (tags : option (list string))
    (now : Z) (fs_ok : bool) (w : world) :
  let a := Article.mk (Num (nextId (this w))) title content (default [] tags) now in
  (eval (addArticle title content tags now fs_ok) w = Normal a
   ∨ ∃ e, eval (addArticle title content tags now fs_ok) w = Throw e)
  ∧ articles (this (exec (addArticle title content tags now fs_ok) w)) = articles (this w) ++ [a]
  ∧ nextId (this (exec (addArticle title content tags now fs_ok) w)) = number_succ (nextId (this w)).
Proof.
  intros a. unfold addArticle. unfold_M. fold a.
  set (w1 := mkWorld _ _).
  pose proof (indexArticle_store a w1) as (Ha & Hn & _).
  pose proof (indexArticle_not_beyond a w1) as Hb.
  unfold exec, eval in *.
  destruct (indexArticle a w1) as [[[]| |] w2] eqn:E; simpl in *.
  - unfold persistArticles. destruct fs_ok; simpl; auto.
  - eauto.
  - congruence.
Qed.

(** ** Identifiers *)

Lemma run_adds_ids (calls : list add_call) (w : world) (n : Z) :
  nextId (this w) = Int n →
  ∃ zs : list Z,
    omap returned_id (run_adds calls w) = (λ z, Num (Int z)) <$> zs
    ∧ StronglySorted Z.lt zs
    ∧ Forall (λ z, n ≤ z) zs
    ∧ (forallb succeeded (run_adds calls w) = true → zs = seqZ n (Z.of_nat (length calls))).
Proof.
  revert w n. induction calls as [|c calls IH]; intros w n Hn.
  - exists []. simpl. repeat split; auto using SSorted_nil.
  - simpl.
    destruct (addArticle_store (call_title c) (call_content c) (call_tags c)
                (call_now c) (call_fs_ok c) w) as (Hr & _ & Hnext).
    fold (call_addArticle c) in Hr, Hnext.
    rewrite Hn in Hnext, Hr. simpl in Hnext.
    destruct (IH _ _ Hnext) as (zs & Hids & Hsorted & Hge & Hall).
    destruct Hr as [Hr | [e Hr]]; rewrite Hr; simpl.
    + exists (n :: zs). fold (omap returned_id (run_adds calls (exec (call_addArticle c) w))).
      rewrite Hids. repeat split.
      * constructor; [assumption|].
        eapply Forall_impl; [exact Hge|]. simpl. intros; lia.
      * constructor; [lia|]. eapply Forall_impl; [exact Hge|]. simpl. intros; lia.
      * intros H. rewrite (Hall H).
        replace (Z.of_nat (S (length calls))) with (Z.succ (Z.of_nat (length calls))) by lia.
        rewrite (seqZ_cons n) by lia. f_equal. f_equal; lia.
    + exists zs. fold (omap returned_id (run_adds calls (exec (call_addArticle c) w))).
      rewrite Hids. repeat split; auto.
      * eapply Forall_impl; [exact Hge|]. simpl. intros; lia.
      * discriminate.
Qed.

(** C9.  From a new engine, the identifiers of the articles returned by
    the successful ones among any sequence of [addArticle] calls are strictly
    increasing integers; when the first call succeeds its article has
    identifier 1, and when all succeed the identifiers are 1, 2, ..., n. *)
Theorem fresh_store_identifiers (calls : list add_call) (f : option (list Json.article)) :
  ∃ zs : list Z,
    omap returned_id (run_adds calls (fresh f)) = (λ z, Num (Int z)) <$> zs
    ∧ StronglySorted Z.lt zs
    ∧ (∀ a, head (run_adds calls (fresh f)) = Some (Normal a) → Article.id a = Num (Int 1))
    ∧ (forallb succeeded (run_adds calls (fresh f)) = true
       → zs = seqZ 1 (Z.of_nat (length calls))).
Proof.
  destruct (run_adds_ids calls (fresh f) 1 eq_refl) as (zs & Hids & Hsorted & _ & Hall).
  exists zs. repeat split; auto.
  intros a Ha. destruct calls as [|c calls]; [discriminate|].
  simpl in Ha.
  destruct (addArticle_store (call_title c) (call_content c) (call_tags c)
              (call_now c) (call_fs_ok c) (fresh f)) as ([Hr | [e Hr]] & _).
  - fold (call_addArticle c) in Hr. rewrite Hr in Ha. injection Ha as <-. reflexivity.
  - fold (call_addArticle c) in Hr. rewrite Hr in Ha. discriminate.
Qed.

(** ** Candidate collection *)

Lemma Set_add_fold_elem (l acc : list idval) (i : idval) :
  i ∈ foldl Set_add acc l ↔ i ∈ acc ∨ i ∈ l.
Proof.
  revert acc. induction l as [|x l IH]; intros acc; simpl.
  - rewrite elem_of_nil. tauto.
  - rewrite IH, elem_of_cons. unfold Set_add.
    case_bool_decide as Hx.
    + split; [tauto|]. intros [?|[->|?]]; auto.
    + rewrite elem_of_app, list_elem_of_singleton. tauto.
Qed.

Lemma Set_add_fold_NoDup (l acc : list idval) :
  NoDup acc → NoDup (foldl Set_add acc l).
Proof.
  revert acc. induction l as [|x l IH]; intros acc Hacc; simpl; [assumption|].
  apply IH. unfold Set_add. case_bool_decide as Hx; [assumption|].
  apply NoDup_app. split; [assumption|]. split.
  - intros y Hy ->%list_elem_of_singleton. contradiction.
  - apply NoDup_singleton.
Qed.

Lemma spread_or_empty_bucket (o : gmap string (list idval)) (k : string) (ids : list idval) :
  spread_or_empty (get_property o k) = Normal ids → ids = bucket o k.
Proof.
  unfold get_property, bucket.
  destruct (o !! k); simpl; [congruence|].
  case_bool_decide; simpl; congruence.
Qed.

Lemma collect_matches_spec (searchTerms : list string) (acc ids : list idval) (w : world) :
  eval (collect_matches searchTerms acc) w = Normal ids →
  (NoDup acc → NoDup ids)
  ∧ ∀ i, i ∈ ids ↔
      i ∈ acc ∨ ∃ term, term ∈ searchTerms
                 ∧ (i ∈ bucket (Index.keywords (index (this w))) term
                    ∨ i ∈ bucket (Index.tags (index (this w))) term).
Proof.
  revert acc. induction searchTerms as [|term rest IH]; intros acc; unfold eval in *; simpl.
  - intros [= ->]. split; [auto|]. intros i. split; [auto|].
    intros [?|(t & Ht & _)]; [assumption|]. inversion Ht.
  - unfold_M.
    destruct (spread_or_empty (get_property (Index.keywords (index (this w))) term))
      as [kw| |] eqn:Ek; simpl; try discriminate.
    destruct (spread_or_empty (get_property (Index.tags (index (this w))) term))
      as [tg| |] eqn:Et; simpl; try discriminate.
    apply spread_or_empty_bucket in Ek, Et. subst kw tg.
    intros H. destruct (IH _ H) as [Hnd Hin]. split.
    + intros Hacc. apply Hnd, Set_add_fold_NoDup, Hacc.
    + intros i. rewrite Hin, Set_add_fold_elem, elem_of_app. split.
      * intros [[?|[?|?]]|(t & Ht & Hb)]; auto.
        -- right. exists term. split; [left|]; auto.
        -- right. exists term. split; [left|]; auto.
        -- right. exists t. split; [right|]; auto.
      * intros [?|(t & Ht & Hb)]; auto.
        apply elem_of_cons in Ht as [->|Ht]; [tauto|].
        right. exists t. auto.
Qed.

Lemma mapM_cons {A B} (f : A → completion B) (x : A) (l : list A) :
  mapM f (x :: l)
  = match f x with
    | Normal y =>
        match mapM f l with
        | Normal ys => Normal (y :: ys)
        | Throw e => Throw e
        | Beyond => Beyond
        end
    | Throw e => Throw e
    | Beyond => Beyond
    end.
Proof. reflexivity. Qed.

Lemma mapM_score_docs (searchTerms : list string) (l : list Article.t) (results : list scored) :
  mapM (score_article searchTerms) l = Normal results →
  doc <$> results = l
  ∧ Forall (λ r, calculateRelevance (doc r) searchTerms = Normal (relevanceScore r)) results.
Proof.
  revert results. induction l as [|a l IH]; intros results.
  - intros [= <-]. split; constructor.
  - rewrite mapM_cons.
    unfold score_article at 1. unfold mbind, completion_bind, mret, completion_ret.
    destruct (calculateRelevance a searchTerms) as [n| |] eqn:En; try discriminate.
    destruct (mapM (score_article searchTerms) l) as [ys| |]; try discriminate.
    intros [= <-]. destruct (IH ys eq_refl) as [Hd Hs]. simpl. split.
    + f_equal. exact Hd.
    + constructor; [exact En|exact Hs].
Qed.

(** ** Sorting *)

Lemma sort_insert_Permutation {A} (cmp : A → A → Z) (x : A) (l : list A) :
  sort_insert cmp x l ≡ₚ x :: l.
Proof.
  induction l as [|y l IH]; simpl; [reflexivity|].
  destruct (cmp x y <=? 0); [reflexivity|].
  rewrite IH. apply Permutation_swap.
Qed.

Lemma Array_sort_Permutation {A} (cmp : A → A → Z) (l : list A) :
  Array_sort cmp l ≡ₚ l.
Proof.
  induction l as [|x l IH]; simpl; [reflexivity|].
  fold (Array_sort cmp l). rewrite sort_insert_Permutation, IH. reflexivity.
Qed.

Section descending.
Context {A : Type} (key : A → Z).

Let cmp (a b : A) : Z := key b - key a.

Lemma sort_insert_descending (x : A) (l : list A) :
  StronglySorted (λ a b, key b ≤ key a) l →
  StronglySorted (λ a b, key b ≤ key a) (sort_insert cmp x l).
Proof.
  induction 1 as [|y l Hl IH Hy]; simpl.
  - repeat constructor.
  - unfold cmp at 1. destruct (Z.leb_spec (key y - key x) 0) as [Hle|Hgt].
    + constructor; [constructor; assumption|].
      constructor; [lia|]. eapply Forall_impl; [exact Hy|]. simpl. intros; lia.
    + constructor; [exact IH|].
      rewrite sort_insert_Permutation. constructor; [lia|exact Hy].
Qed.

Lemma Array_sort_descending (l : list A) :
  StronglySorted (λ a b, key b ≤ key a) (Array_sort cmp l).
Proof.
  induction l as [|x l IH]; simpl; [constructor|].
  apply sort_insert_descending, IH.
Qed.

End descending.

Lemma sort_results_Permutation (sortBy : string) (results : list scored) :
  sort_results sortBy results ≡ₚ results.
Proof.
  unfold sort_results. repeat case_decide; auto using Array_sort_Permutation.
Qed.

Lemma searchArticles_returns (query sortBy : string) (w : world) (results : list scored) :
  eval (searchArticles query sortBy) w = Normal results →
  ∃ matchedIds unsorted,
    eval (collect_matches (query_tokens query) []) w = Normal matchedIds
    ∧ mapM (score_article (query_tokens query))
        (filter (λ a, Article.id a ∈ matchedIds) (articles (this w))) = Normal unsorted
    ∧ results = sort_results sortBy unsorted.
Proof.
  unfold searchArticles. fold (query_tokens query).
  pose proof (collect_matches_frame (query_tokens query) [] w) as Hw.
  unfold_M.
  destruct (collect_matches (query_tokens query) [] w) as [[ids| |] w'];
    simpl in *; try discriminate. subst w'.
  destruct (mapM _ _) as [unsorted| |] eqn:Em; simpl; try discriminate.
  intros [= <-]. eauto.
Qed.

Lemma search_candidates (query sortBy : string) (w : world) (results : list scored) :
  eval (searchArticles query sortBy) w = Normal results →
  ∃ matchedIds : list idval,
    NoDup matchedIds
    ∧ (∀ i, i ∈ matchedIds ↔
         ∃ term, term ∈ query_tokens query
           ∧ (i ∈ bucket (Index.keywords (index (this w))) term
              ∨ i ∈ bucket (Index.tags (index (this w))) term))
    ∧ doc <$> results ≡ₚ filter (λ a, Article.id a ∈ matchedIds) (articles (this w)).
Proof.
  intros H. apply searchArticles_returns in H as (ids & unsorted & Hc & Hm & ->).
  apply collect_matches_spec in Hc as [Hnd Hin].
  apply mapM_score_docs in Hm as [Hd _].
  exists ids. split; [apply Hnd, NoDup_nil_2|]. split.
  - intros i. rewrite Hin, elem_of_nil. tauto.
  - rewrite sort_results_Permutation, Hd. reflexivity.
Qed.

Lemma StronglySorted_weaken {A} (R S : A → A → Prop) (l : list A) :
  (∀ a b, R a b → S a b) → StronglySorted R l → StronglySorted S l.
Proof.
  intros HRS. induction 1 as [|x l Hl IH Hx]; constructor; [assumption|].
  eapply Forall_impl; [exact Hx|]. auto.
Qed.

(** C4.  The list a search returns is ordered by its sort key: for
    ["relevance"] by descending score, for ["date"] by descending creation
    instant (in both cases every result precedes only results that do not
    exceed it, equal keys in the order the stable sort leaves them), and for
    any other key the results follow the store: they are the stored articles
    with a candidate identifier, in the order of the article list. *)
Theorem search_result_order (query sortBy : string) (w : world) (results : list scored) :
  eval (searchArticles query sortBy) w = Normal results →
  (sortBy = "relevance" →
     StronglySorted (λ a b, (relevanceScore b ≤ relevanceScore a)%nat) results)
  ∧ (sortBy = "date" →
     StronglySorted (λ a b, Article.createdAt (doc b) ≤ Article.createdAt (doc a)) results)
  ∧ (sortBy ≠ "relevance" → sortBy ≠ "date" →
     ∃ matchedIds : list idval,
       (∀ i, i ∈ matchedIds ↔
          ∃ term, term ∈ query_tokens query
            ∧ (i ∈ bucket (Index.keywords (index (this w))) term
               ∨ i ∈ bucket (Index.tags (index (this w))) term))
       ∧ doc <$> results = filter (λ a, Article.id a ∈ matchedIds) (articles (this w))).
Proof.
  intros H. apply searchArticles_returns in H as (ids & unsorted & Hc & Hm & ->).
  unfold sort_results. split; [|split].
  - intros ->. rewrite decide_True by reflexivity.
    eapply StronglySorted_weaken;
      [|apply (Array_sort_descending (λ r, Z.of_nat (relevanceScore r)))].
    simpl. intros; lia.
  - intros ->. rewrite decide_False by discriminate. rewrite decide_True by reflexivity.
    apply (Array_sort_descending (λ r, Article.createdAt (doc r))).
  - intros Hr Hd. rewrite !decide_False by assumption.
    apply collect_matches_spec in Hc as [_ Hin].
    apply mapM_score_docs in Hm as [Hdoc _].
    exists ids. split; [|exact Hdoc].
    intros i. rewrite Hin, elem_of_nil. tauto.
Qed.

Lemma search_result_order_witness :
  ("date" = "relevance" →
     StronglySorted (λ a b, (relevanceScore b ≤ relevanceScore a)%nat)
       [mkScored dog_article 0; mkScored cats_article 1])
  ∧ ("date" = "date" →
     StronglySorted (λ a b, Article.createdAt (doc b) ≤ Article.createdAt (doc a))
       [mkScored dog_article 0; mkScored cats_article 1])
  ∧ ("date" ≠ "relevance" → "date" ≠ "date" →
     ∃ matchedIds : list idval,
       (∀ i, i ∈ matchedIds ↔
          ∃ term, term ∈ query_tokens "pets"
            ∧ (i ∈ bucket (Index.keywords (index (this example_world))) term
               ∨ i ∈ bucket (Index.tags (index (this example_world))) term))
       ∧ doc <$> [mkScored dog_article 0; mkScored cats_article 1]
         = filter (λ a, Article.id a ∈ matchedIds) (articles (this example_world))).
Proof.
  apply (search_result_order "pets" "date" example_world
           [mkScored dog_article 0; mkScored cats_article 1]).
  vm_compute. reflexivity.
Defined.

(** ** Matches of a literal pattern *)

Lemma disjoint_from_start (width from from' : nat) (positions : list nat) :
  Forall (λ i, from ≤ i ∧ from' ≤ i)%nat positions →
  disjoint_from width from positions = disjoint_from width from' positions.
Proof.
  destruct 1 as [|i rest [H1 H2] _]; simpl; [reflexivity|].
  destruct (Nat.leb_spec from i), (Nat.leb_spec from' i); try lia. reflexivity.
Qed.

Lemma occurrences_from_ge (i : nat) (p s : string) :
  Forall (λ j, i ≤ j)%nat (occurrences_from i p s).
Proof.
  revert i. induction s as [|c s IH]; intros i; cbn [occurrences_from].
  - destruct (String.prefix p ""); repeat constructor.
  - apply Forall_app. split.
    + destruct (String.prefix p (String c s)); repeat constructor.
    + eapply Forall_impl; [apply IH|]. simpl. intros; lia.
Qed.

(** The global match of a literal pattern counts the disjoint occurrences. *)
Lemma count_matches_disjoint_from (p s : string) (i skip : nat) :
  count_matches p skip s
  = length (disjoint_from (String.length p) (i + skip) (occurrences_from i p s)).
Proof.
  revert i skip. induction s as [|c s IH]; intros i skip.
  - simpl. destruct skip as [|k], p as [|c' p']; simpl; try reflexivity.
    + rewrite Nat.add_0_r, Nat.leb_refl. reflexivity.
    + destruct (Nat.leb_spec (i + S k) i); [lia|reflexivity].
  - cbn [count_matches occurrences_from]. destruct skip as [|k].
    + rewrite Nat.add_0_r. destruct (String.prefix p (String c s)); simpl.
      * rewrite Nat.leb_refl. simpl. f_equal.
        rewrite (IH (S i) (Nat.pred (String.length p))). do 2 f_equal. lia.
      * rewrite (IH (S i) 0%nat). f_equal. apply disjoint_from_start.
        eapply Forall_impl; [apply occurrences_from_ge|]. simpl. intros; lia.
    + rewrite (IH (S i) k).
      replace (S i + k)%nat with (i + S k)%nat by lia.
      destruct (String.prefix p (String c s)); simpl; [|reflexivity].
      destruct (Nat.leb_spec (i + S k) i); [lia|reflexivity].
Qed.

Lemma count_matches_disjoint (p s : string) :
  count_matches p 0 s = length (disjoint_occurrences p s).
Proof. apply (count_matches_disjoint_from p s 0 0). Qed.

Lemma sum_term_counts_spec (text : string) (searchTerms : list string) (score n : nat) :
  sum_term_counts text searchTerms score = Normal n →
  n = (score + sum_list ((λ t, count_matches (toLowerCase t) 0 text) <$> searchTerms))%nat
  ∧ Forall (λ t, literal_pattern (toLowerCase t) = true) searchTerms.
Proof.
  revert score. induction searchTerms as [|t rest IH]; intros score; cbn [sum_term_counts].
  - intros [= <-]. split; [simpl; lia|constructor].
  - destruct (literal_pattern (toLowerCase t)) eqn:El; [|discriminate].
    intros H. apply IH in H as [-> Hl]. split; [|constructor; assumption].
    rewrite fmap_cons. cbn [sum_list_with]. unfold id. lia.
Qed.

(** ** Tokens *)

Lemma lower_char_idempotent (c : ascii) : lower_char (lower_char c) = lower_char c.
Proof. destruct c as [[] [] [] [] [] [] [] []]; reflexivity. Qed.

Lemma is_space_lower_char (c : ascii) : is_space (lower_char c) = is_space c.
Proof. destruct c as [[] [] [] [] [] [] [] []]; reflexivity. Qed.

Lemma toLowerCase_idempotent (s : string) : toLowerCase (toLowerCase s) = toLowerCase s.
Proof.
  induction s as [|c s IH]; simpl; [reflexivity|].
  rewrite lower_char_idempotent, IH. reflexivity.
Qed.

Lemma list_ascii_toLowerCase (s : string) :
  list_ascii_of_string (toLowerCase s) = lower_char <$> list_ascii_of_string s.
Proof. induction s as [|c s IH]; simpl; [reflexivity|]. rewrite IH. reflexivity. Qed.

Lemma toLowerCase_fixed (s : string) :
  Forall (λ c, lower_char c = c) (list_ascii_of_string s) → toLowerCase s = s.
Proof.
  induction s as [|c s IH]; simpl; [reflexivity|].
  intros H. inversion H as [|? ? Hc Hs]; subst. rewrite Hc, IH by assumption. reflexivity.
Qed.

Lemma has_space_false (s : string) :
  Forall (λ c, is_space c = false) (list_ascii_of_string s) → has_space s = false.
Proof.
  induction s as [|c s IH]; simpl; [reflexivity|].
  intros H. inversion H as [|? ? Hc Hs]; subst. rewrite Hc, IH by assumption. reflexivity.
Qed.

(** Every character of a token is a character of the text that is no
    whitespace. *)
Lemma split_from_characters (P : ascii → Prop) (s cur : list ascii) (in_sep : bool) :
  Forall P cur →
  Forall (λ c, is_space c = false → P c) s →
  Forall (λ token, Forall P (list_ascii_of_string token)) (split_from cur in_sep s).
Proof.
  revert cur in_sep. induction s as [|c s IH]; intros cur in_sep Hcur Hs; simpl.
  - constructor; [|constructor].
    rewrite list_ascii_of_string_of_list_ascii. apply Forall_rev, Hcur.
  - inversion Hs as [|? ? Hc Hs']; subst.
    destruct (is_space c) eqn:Ec.
    + destruct in_sep.
      * apply IH; [constructor|assumption].
      * constructor; [|apply IH; [constructor|assumption]].
        rewrite list_ascii_of_string_of_list_ascii. apply Forall_rev, Hcur.
    + apply IH; [|assumption]. constructor; auto.
Qed.

Lemma query_tokens_characters (query : string) :
  Forall (λ token, toLowerCase token = token ∧ has_space token = false) (query_tokens query).
Proof.
  unfold query_tokens, split_whitespace.
  eapply Forall_impl.
  - apply (split_from_characters (λ c, lower_char c = c ∧ is_space c = false));
      [constructor|].
    rewrite list_ascii_toLowerCase. apply Forall_fmap, Forall_true.
    intros c Hc. simpl. split; [apply lower_char_idempotent|exact Hc].
  - simpl. intros token H. split.
    + apply toLowerCase_fixed. eapply Forall_impl; [exact H|]. simpl. tauto.
    + apply has_space_false. eapply Forall_impl; [exact H|]. simpl. tauto.
Qed.

Lemma string_of_list_ascii_empty (l : list ascii) :
  string_of_list_ascii l = "" ↔ l = [].
Proof. destruct l; simpl; split; congruence. Qed.

Lemma ends_with_space_cons (c : ascii) (s : string) :
  ends_with_space (String c s) = if decide (s = "") then is_space c else ends_with_space s.
Proof. destruct s; reflexivity. Qed.

(** Where the split leaves an empty token: after a separator at the end of the
    text, and before one at its start. *)
Lemma split_from_empty_token (s : string) :
  (∀ cur, cur ≠ [] →
     "" ∈ split_from cur false (list_ascii_of_string s) ↔ ends_with_space s = true)
  ∧ ("" ∈ split_from [] true (list_ascii_of_string s) ↔ s = "" ∨ ends_with_space s = true).
Proof.
  induction s as [|c s [IH1 IH2]].
  - split.
    + intros cur Hcur. simpl. rewrite list_elem_of_singleton. split; [|discriminate].
      intros H. symmetry in H. apply string_of_list_ascii_empty in H.
      destruct cur; [contradiction|]. simpl in H. destruct (rev cur); discriminate.
    + simpl. rewrite list_elem_of_singleton. tauto.
  - rewrite ends_with_space_cons. split.
    + intros cur Hcur. cbn [list_ascii_of_string split_from].
      destruct (is_space c) eqn:Ec.
      * rewrite elem_of_cons, IH2. split.
        -- intros [H|[->|H]].
           ++ symmetry in H. apply string_of_list_ascii_empty in H.
              destruct cur; [contradiction|]. simpl in H. destruct (rev cur); discriminate.
           ++ reflexivity.
           ++ case_decide as Hs; [reflexivity|exact H].
        -- case_decide as Hs; auto.
      * rewrite IH1 by discriminate. case_decide as Hs; [|tauto].
        subst s. simpl. split; discriminate.
    + cbn [list_ascii_of_string split_from]. destruct (is_space c) eqn:Ec.
      * rewrite IH2. split.
        -- intros [->|H]; right; [reflexivity|]. case_decide; [reflexivity|exact H].
        -- intros [?|H]; [discriminate|]. case_decide; auto.
      * rewrite IH1 by discriminate. split.
        -- intros H. right. case_decide as Hs; [|exact H]. subst s. discriminate.
        -- intros [?|H]; [discriminate|]. case_decide as Hs; [discriminate|exact H].
Qed.

Lemma split_whitespace_empty_token (s : string) :
  "" ∈ split_whitespace s ↔ s = "" ∨ starts_with_space s = true ∨ ends_with_space s = true.
Proof.
  unfold split_whitespace. destruct s as [|c s].
  - simpl. rewrite list_elem_of_singleton. tauto.
  - destruct (split_from_empty_token s) as [H1 H2].
    rewrite ends_with_space_cons.
    cbn [list_ascii_of_string split_from starts_with_space].
    destruct (is_space c) eqn:Ec.
    + rewrite elem_of_cons. split; auto.
    + rewrite H1 by discriminate. split.
      * intros H. right. right. case_decide as Hs; [|exact H]. subst s. discriminate.
      * intros [?|[?|H]]; try discriminate. case_decide as Hs; [discriminate|exact H].
Qed.

(** ** What a search returns *)

Lemma sum_term_counts_completes (text : string) (searchTerms : list string) (score : nat) :
  Forall (λ t, literal_pattern (toLowerCase t) = true) searchTerms →
  ∃ n, sum_term_counts text searchTerms score = Normal n.
Proof.
  intros H. revert score. induction H as [|t rest Ht Hrest IH]; intros score; simpl.
  - eauto.
  - rewrite Ht. apply IH.
Qed.

Lemma collect_matches_completes (searchTerms : list string) (acc : list idval) (w : world) :
  Forall plain_key searchTerms →
  ∃ ids, eval (collect_matches searchTerms acc) w = Normal ids.
Proof.
  intros H. revert acc. induction H as [|t rest Ht Hrest IH]; intros acc.
  - exists acc. reflexivity.
  - unfold eval in *. simpl. unfold_M. unfold get_property, plain_key in *.
    rewrite !bool_decide_eq_false_2 by assumption.
    destruct (Index.keywords (index (this w)) !! t), (Index.tags (index (this w)) !! t);
      simpl; apply IH.
Qed.

Lemma mapM_score_completes (searchTerms : list string) (l : list Article.t) :
  Forall (λ t, literal_pattern (toLowerCase t) = true) searchTerms →
  ∃ results, mapM (score_article searchTerms) l = Normal results.
Proof.
  intros H. induction l as [|a l [results IH]]; [exists []; reflexivity|].
  rewrite mapM_cons.
  unfold score_article at 1, calculateRelevance, mbind, completion_bind, mret, completion_ret.
  destruct (sum_term_counts_completes (searchText a) searchTerms 0%nat H) as [n ->].
  rewrite IH. eauto.
Qed.

(** A search returns when no token of the query holds a syntax character of
    regular expressions or is a property name of [Object.prototype]. *)
Lemma searchArticles_completes (query sortBy : string) (w : world) :
  Forall (λ t, plain_key t ∧ literal_pattern t = true) (query_tokens query) →
  ∃ results, eval (searchArticles query sortBy) w = Normal results.
Proof.
  intros H. unfold searchArticles. fold (query_tokens query).
  destruct (collect_matches_completes (query_tokens query) [] w) as [ids Hc].
  { eapply Forall_impl; [exact H|]. simpl. tauto. }
  pose proof (collect_matches_frame (query_tokens query) [] w) as Hw.
  unfold_M.
  destruct (collect_matches (query_tokens query) [] w) as [c w']. simpl in *. subst c w'.
  destruct (mapM_score_completes (query_tokens query)
              (filter (λ a, Article.id a ∈ ids) (articles (this w)))) as [results ->].
  { pose proof (query_tokens_characters query) as Hl.
    rewrite Forall_forall in *. intros t Ht.
    destruct (Hl t Ht) as [-> _]. apply H, Ht. }
  simpl. eauto.
Qed.



(** ** The score of a result *)

Lemma disjoint_from_length (width from : nat) (positions : list nat) :
  (length (disjoint_from width from positions) ≤ length positions)%nat.
Proof.
  revert from. induction positions as [|i rest IH]; intros from; simpl; [lia|].
  destruct (from <=? i)%nat; simpl.
  - specialize (IH (i + Nat.max width 1)%nat). lia.
  - specialize (IH from). lia.
Qed.

Lemma sum_list_fmap_le {A} (f g : A → nat) (l : list A) :
  (∀ x, f x ≤ g x)%nat → (sum_list (f <$> l) ≤ sum_list (g <$> l))%nat.
Proof.
  intros H. induction l as [|x l IH]; [simpl; lia|].
  rewrite !fmap_cons. cbn [sum_list_with]. specialize (H x). unfold id in *. lia.
Qed.

Lemma disjoint_score_le (a : Article.t) (tokens : list string) :
  (disjoint_score a tokens ≤ overlapping_score a tokens)%nat.
Proof.
  unfold disjoint_score, overlapping_score. apply sum_list_fmap_le.
  intros t. apply disjoint_from_length.
Qed.

Lemma calculateRelevance_query_tokens (a : Article.t) (query : string) (n : nat) :
  calculateRelevance a (query_tokens query) = Normal n →
  n = disjoint_score a (query_tokens query).
Proof.
  unfold calculateRelevance. intros H.
  apply sum_term_counts_spec in H as [-> _]. simpl.
  unfold disjoint_score. f_equal. apply Forall_fmap_ext.
  eapply Forall_impl; [apply query_tokens_characters|].
  simpl. intros t [-> _]. apply count_matches_disjoint.
Qed.

Lemma search_scores (query sortBy : string) (w : world) (results : list scored) :
  eval (searchArticles query sortBy) w = Normal results →
  Forall (λ r, relevanceScore r = disjoint_score (doc r) (query_tokens query)) results.
Proof.
  intros H. apply searchArticles_returns in H as (ids & unsorted & _ & Hm & ->).
  apply mapM_score_docs in Hm as [_ Hs].
  rewrite sort_results_Permutation.
  eapply Forall_impl; [exact Hs|]. simpl. intros r Hr.
  apply calculateRelevance_query_tokens, Hr.
Qed.

(** C1, as the code has it.  For a query whose tokens hold no syntax
    character of regular expressions, the score computed for an article is the
    sum, over the query tokens, of the occurrences of the token in the
    lowercased [title + " " + content] that a scan from left to right meets
    when it resumes at the end of each occurrence found; this is the score of
    every result of a search.  Occurrences that overlap an earlier one are not
    counted, so the score is at most, and not always equal to, the number of
    all occurrences. *)
Theorem search_relevance_score (query : string) :
  Forall (λ t, literal_pattern t = true) (query_tokens query) →
  (∀ a, calculateRelevance a (query_tokens query)
        = Normal (disjoint_score a (query_tokens query)))
  ∧ (∀ sortBy w results,
       eval (searchArticles query sortBy) w = Normal results →
       Forall (λ r, relevanceScore r = disjoint_score (doc r) (query_tokens query)
                    ∧ (relevanceScore r ≤ overlapping_score (doc r) (query_tokens query))%nat)
              results).
Proof.
  intros Hl. split.
  - intros a.
    destruct (sum_term_counts_completes (searchText a) (query_tokens query) 0%nat) as [n Hn].
    { pose proof (query_tokens_characters query) as Hq. rewrite Forall_forall in *.
      intros t Ht. destruct (Hq t Ht) as [-> _]. apply Hl, Ht. }
    unfold calculateRelevance. rewrite Hn. f_equal.
    apply calculateRelevance_query_tokens, Hn.
  - intros sortBy w results H. eapply Forall_impl; [apply (search_scores _ _ _ _ H)|].
    simpl. intros r ->. split; [reflexivity|apply disjoint_score_le].
Qed.

Lemma search_relevance_score_witness :
  (∀ a, calculateRelevance a (query_tokens "ana") = Normal (disjoint_score a (query_tokens "ana")))
  ∧ (∀ sortBy w results,
       eval (searchArticles "ana" sortBy) w = Normal results →
       Forall (λ r, relevanceScore r = disjoint_score (doc r) (query_tokens "ana")
                    ∧ (relevanceScore r ≤ overlapping_score (doc r) (query_tokens "ana"))%nat)
              results).
Proof.
  apply (search_relevance_score "ana"). vm_compute. repeat constructor.
Defined.

(** C1 as stated fails: "ana" occurs three times in "ana eats a banana", twice
    inside "banana" with an overlap, and the search scores the article 2. *)
Lemma overlapping_occurrences_not_counted :
  eval (searchArticles "ana" "relevance") ana_world = Normal [mkScored ana_article 2]
  ∧ overlapping_score ana_article (query_tokens "ana") = 3%nat.
Proof. split; vm_compute; reflexivity. Qed.

(** ** Empty tokens *)

Lemma starts_with_space_toLowerCase (s : string) :
  starts_with_space (toLowerCase s) = starts_with_space s.
Proof. destruct s; simpl; [reflexivity|apply is_space_lower_char]. Qed.

Lemma ends_with_space_toLowerCase (s : string) :
  ends_with_space (toLowerCase s) = ends_with_space s.
Proof.
  induction s as [|c s IH]; [reflexivity|].
  cbn [toLowerCase]. rewrite !ends_with_space_cons, IH, is_space_lower_char.
  destruct s; reflexivity.
Qed.

Lemma count_matches_empty_pattern (s : string) :
  count_matches "" 0 s = S (String.length s).
Proof. induction s as [|c s IH]; simpl; [reflexivity|]. rewrite IH. reflexivity. Qed.

Lemma sum_term_counts_shift (text : string) (searchTerms : list string) (k score : nat) :
  sum_term_counts text searchTerms (k + score)
  = (λ n, (k + n)%nat) <$> sum_term_counts text searchTerms score.
Proof.
  revert score. induction searchTerms as [|t rest IH]; intros score; simpl; [reflexivity|].
  destruct (literal_pattern (toLowerCase t)); [|reflexivity].
  rewrite <- Nat.add_assoc. apply IH.
Qed.

(** C7, as the code has it.  The tokens of a query are the pieces of the
    lowercased query between runs of whitespace: each is lowercase and holds no
    whitespace, and none is discarded.  An empty token is among them exactly
    when the query is empty or begins or ends with whitespace.  It then takes
    part in the search like any other token: an article whose identifier is in
    the bucket of the empty keyword or tag is a candidate and is returned, and
    in scoring the empty token matches once at every position of the text, so
    it adds the length of the text plus one to the score of an article. *)
Theorem query_tokens_keep_empty (query : string) :
  Forall (λ token, toLowerCase token = token ∧ has_space token = false) (query_tokens query)
  ∧ ("" ∈ query_tokens query ↔
       query = "" ∨ starts_with_space query = true ∨ ends_with_space query = true)
  ∧ (∀ sortBy w results a,
       eval (searchArticles query sortBy) w = Normal results →
       "" ∈ query_tokens query → a ∈ articles (this w) →
       Article.id a ∈ bucket (Index.keywords (index (this w))) ""
       ∨ Article.id a ∈ bucket (Index.tags (index (this w))) "" →
       a ∈ doc <$> results)
  ∧ (∀ a searchTerms,
       calculateRelevance a ("" :: searchTerms)
       = (λ n, (S (String.length (searchText a)) + n)%nat) <$> calculateRelevance a searchTerms).
Proof.
  split; [apply query_tokens_characters|]. split; [|split].
  - unfold query_tokens. rewrite split_whitespace_empty_token.
    rewrite starts_with_space_toLowerCase, ends_with_space_toLowerCase.
    destruct query; simpl; intuition congruence.
  - intros sortBy w results a H Hempty Ha Hb.
    destruct (search_candidates _ _ _ _ H) as (ids & _ & Hids & Hp).
    rewrite Hp. apply list_elem_of_filter. split; [|exact Ha]. apply Hids. eauto.
  - intros a searchTerms. unfold calculateRelevance.
    cbn [sum_term_counts toLowerCase literal_pattern].
    rewrite count_matches_empty_pattern.
    rewrite <- (sum_term_counts_shift _ _ _ 0). f_equal. lia.
Qed.

(** C7 as stated fails: the query " dog" has the tokens "" and "dog".  Its
    empty token brings in the article whose text begins with a space, and it
    adds the length of each text plus one to the scores, which reverses the
    order that the trimmed query gives to the two articles about dogs. *)
Lemma leading_space_changes_result :
  query_tokens " dog" = [""; "dog"]
  ∧ eval (searchArticles " dog" "relevance") spaced_world
    = Normal [mkScored long_dog_article 41; mkScored short_dog_article 12;
              mkScored spaced_cat_article 10]
  ∧ eval (searchArticles "dog" "relevance") spaced_world
    = Normal [mkScored short_dog_article 2; mkScored long_dog_article 1].
Proof. repeat split; vm_compute; reflexivity. Qed.

(** ** Reading an identifier *)

Lemma digit_value_digit_char (d : Z) :
  0 ≤ d < 10 → digit_value 10 (digit_char d) = Some d.
Proof.
  intros H.
  assert (d = 0 ∨ d = 1 ∨ d = 2 ∨ d = 3 ∨ d = 4 ∨ d = 5 ∨ d = 6 ∨ d = 7 ∨ d = 8 ∨ d = 9)
    as Hd by lia.
  repeat destruct Hd as [->|Hd]; try subst d; reflexivity.
Qed.

Lemma read_decimal_digits (fuel : nat) (n : Z) (acc : string) :
  (1 ≤ fuel)%nat → 0 ≤ n < 2 ^ Z.of_nat fuel →
  read_digits 10 None (decimal_digits fuel n acc) = read_digits 10 (Some n) acc.
Proof.
  revert n acc. induction fuel as [|fuel IH]; intros n acc Hf Hn; [lia|].
  cbn [decimal_digits].
  assert (Hmod : 0 ≤ n mod 10 < 10) by (apply Z.mod_pos_bound; lia).
  destruct (Z.eqb_spec (n / 10) 0) as [Hq|Hq].
  - cbn [read_digits]. rewrite digit_value_digit_char by assumption. simpl default.
    do 2 f_equal. pose proof (Z.div_mod n 10 ltac:(lia)). lia.
  - assert (Hq' : 0 < n / 10) by (pose proof (Z.div_pos n 10); lia).
    assert (Hlt : n / 10 < 2 ^ Z.of_nat fuel).
    { rewrite Nat2Z.inj_succ, Z.pow_succ_r in Hn by lia.
      apply Z.div_lt_upper_bound; lia. }
    assert (1 ≤ fuel)%nat.
    { destruct fuel; [|lia]. simpl in Hlt. lia. }
    rewrite IH by (auto; lia).
    cbn [read_digits]. rewrite digit_value_digit_char by assumption. simpl default.
    do 2 f_equal. pose proof (Z.div_mod n 10 ltac:(lia)). lia.
Qed.

(** The text of a number begins with a digit, and with 0 only for zero. *)
Lemma decimal_digits_head (fuel : nat) (n : Z) (acc : string) :
  (1 ≤ fuel)%nat → 0 ≤ n < 2 ^ Z.of_nat fuel →
  ∃ d rest, decimal_digits fuel n acc = String (digit_char d) rest
            ∧ 0 ≤ d < 10 ∧ (d = 0 → n = 0 ∧ rest = acc).
Proof.
  revert n acc. induction fuel as [|fuel IH]; intros n acc Hf Hn; [lia|].
  cbn [decimal_digits].
  assert (Hmod : 0 ≤ n mod 10 < 10) by (apply Z.mod_pos_bound; lia).
  destruct (Z.eqb_spec (n / 10) 0) as [Hq|Hq].
  - exists (n mod 10), acc. split; [reflexivity|]. split; [assumption|].
    intros H0. pose proof (Z.div_mod n 10 ltac:(lia)). split; [lia|reflexivity].
  - assert (Hq' : 0 < n / 10) by (pose proof (Z.div_pos n 10); lia).
    assert (Hlt : n / 10 < 2 ^ Z.of_nat fuel).
    { rewrite Nat2Z.inj_succ, Z.pow_succ_r in Hn by lia.
      apply Z.div_lt_upper_bound; lia. }
    assert (Hfuel : (1 ≤ fuel)%nat).
    { destruct fuel; [|lia]. simpl in Hlt. lia. }
    destruct (IH (n / 10) (String (digit_char (n mod 10)) acc) Hfuel ltac:(lia))
      as (d & rest & -> & Hd & Hrest).
    exists d, rest. split; [reflexivity|]. split; [assumption|].
    intros H0. destruct (Hrest H0) as [? _]. lia.
Qed.

Lemma log2_fuel (n : Z) : 0 ≤ n → n < 2 ^ Z.of_nat (S (Z.to_nat (Z.log2 n))).
Proof.
  intros Hn. rewrite Nat2Z.inj_succ, Z2Nat.id by apply Z.log2_nonneg.
  destruct (Z.eq_dec n 0) as [->|Hz]; [reflexivity|].
  apply Z.log2_spec. lia.
Qed.

Lemma parseInt_digits (d : Z) (rest : string) :
  0 ≤ d < 10 → (d = 0 → rest = "") →
  strip_hex_prefix (String (digit_char d) rest) = (10, String (digit_char d) rest)
  ∧ strip_sign (String (digit_char d) rest) = (1, String (digit_char d) rest)
  ∧ trim_start (String (digit_char d) rest) = String (digit_char d) rest.
Proof.
  intros H Hrest.
  assert (d = 0 ∨ d = 1 ∨ d = 2 ∨ d = 3 ∨ d = 4 ∨ d = 5 ∨ d = 6 ∨ d = 7 ∨ d = 8 ∨ d = 9)
    as Hd by lia.
  destruct Hd as [->|Hd]; [rewrite Hrest by reflexivity; repeat split|].
  repeat destruct Hd as [->|Hd]; try subst d; repeat split.
Qed.

(** [parseInt] reads back the text of a number. *)
Lemma parseInt_Number_toString (n : parsed) :
  match n with
  | NaN => True
  | Parsed z => safe_integer z = true
  end →
  parseInt (Number_toString n) = Normal n.
Proof.
  destruct n as [|z]; [reflexivity|]. intros Hsafe. unfold Number_toString.
  pose proof (log2_fuel (Z.abs z) (Z.abs_nonneg z)) as Hfuel.
  set (fuel := S (Z.to_nat (Z.log2 (Z.abs z)))) in *.
  assert (Hf : (1 ≤ fuel)%nat) by (unfold fuel; lia).
  pose proof (read_decimal_digits fuel (Z.abs z) "" Hf ltac:(lia)) as Hread.
  destruct (decimal_digits_head fuel (Z.abs z) "" Hf ltac:(lia)) as (d & rest & Hs & Hd & H0).
  rewrite Hs in *.
  destruct (parseInt_digits d rest Hd (λ H, proj2 (H0 H))) as (Hhex & Hsign & Htrim).
  unfold safe_integer in Hsafe.
  destruct (Z.ltb_spec z 0) as [Hneg|Hpos]; unfold parseInt.
  - cbn [trim_start is_space]. change (is_space "-") with false. cbv iota.
    cbn [strip_sign]. rewrite Hhex, Hread. cbn [read_digits].
    unfold safe_integer. rewrite Z.abs_idemp, Hsafe. do 2 f_equal. lia.
  - rewrite Htrim, Hsign, Hhex, Hread. cbn [read_digits].
    unfold safe_integer. rewrite Z.abs_idemp, Hsafe. do 2 f_equal. lia.
Qed.

Lemma parseInt_safe (s : string) (z : Z) :
  parseInt s = Normal (Parsed z) → safe_integer z = true.
Proof.
  unfold parseInt.
  destruct (strip_sign (trim_start s)) as [sign s1] eqn:Es.
  destruct (strip_hex_prefix s1) as [radix s2].
  destruct (read_digits radix None s2) as [v|]; [|discriminate].
  destruct (safe_integer v) eqn:Ev; [|discriminate].
  intros [= <-]. unfold safe_integer in *.
  assert (sign = 1 ∨ sign = -1) as [->| ->].
  { unfold strip_sign in Es. destruct (trim_start s) as [|c r]; [injection Es; auto|].
    destruct c as [[] [] [] [] [] [] [] []]; injection Es; auto. }
  - rewrite Z.mul_1_l. exact Ev.
  - replace (Z.abs (-1 * v)) with (Z.abs v) by lia. exact Ev.
Qed.

Lemma find_pointwise {A} (f g : A → bool) (l : list A) :
  (∀ x, f x = g x) → List.find f l = List.find g l.
Proof.
  intros H. induction l as [|x l IH]; simpl; [reflexivity|].
  rewrite H, IH. reflexivity.
Qed.

Lemma strict_equal_decide (i : idval) (z : Z) :
  strict_equal i (Parsed z) = bool_decide (i = Num (Int z)).
Proof.
  destruct i as [[x|]|]; simpl.
  - destruct (Z.eqb_spec x z) as [->|Hne]; symmetry.
    + apply bool_decide_eq_true. reflexivity.
    + apply bool_decide_eq_false. congruence.
  - reflexivity.
  - reflexivity.
Qed.

Lemma find_NaN (l : list Article.t) :
  List.find (λ a, strict_equal (Article.id a) NaN) l = None.
Proof.
  induction l as [|a l IH]; simpl; [reflexivity|].
  destruct (Article.id a) as [[|]|]; exact IH.
Qed.



Lemma getArticle_found (n : parsed) (w : world) :
  match n with
  | NaN => True
  | Parsed z => safe_integer z = true
  end →
  getArticle n w
  = (Normal (List.find (λ a, strict_equal (Article.id a) n) (articles (this w))), w).
Proof.
  intros Hn. unfold getArticle, mbind, M_bind, get_this, lift, mret, M_ret.
  rewrite parseInt_Number_toString by assumption. reflexivity.
Qed.

Lemma get_articles_id_run (id : string) (w : world) :
  get_articles_id id w =
    (match parseInt id with
     | Normal NaN => Normal not_found
     | Normal (Parsed z) =>
         match List.find (λ a, bool_decide (Article.id a = Num (Int z))) (articles (this w)) with
         | Some a => Normal (mkResponse 200 (ArticleJson a))
         | None => Normal not_found
         end
     | Throw e => Throw e
     | Beyond => Beyond
     end, w).
Proof.
  unfold get_articles_id, mbind, M_bind, lift.
  destruct (parseInt id) as [[|z]| |] eqn:Ep; try reflexivity.
  - rewrite (getArticle_found NaN) by exact I. rewrite find_NaN. reflexivity.
  - rewrite (getArticle_found (Parsed z)) by (apply (parseInt_safe id), Ep).
    rewrite (find_pointwise _ (λ a, bool_decide (Article.id a = Num (Int z))))
      by (intros a; apply strict_equal_decide).
    destruct (List.find _ _); reflexivity.
Qed.



(** ** The articles file *)

Lemma parse_stringify_article (a : Article.t) :
  Article.id a ≠ Num NegInfinity → parse_article (stringify_article a) = a.
Proof.
  destruct a as [[[z|]|] t c tg d]; unfold parse_article, stringify_article; simpl;
    intros H; try reflexivity. contradiction.
Qed.

Lemma parse_stringify_articles (l : list Article.t) :
  Forall (λ a, Article.id a ≠ Num NegInfinity) l →
  parse_article <$> (stringify_article <$> l) = l.
Proof.
  induction 1 as [|a l Ha Hl IH]; simpl; [reflexivity|].
  rewrite parse_stringify_article by assumption. f_equal. exact IH.
Qed.




(** C6 fails on the empty list.  Loading a file that holds [[]] leaves the
    counter at [-Infinity], not at 1: [Math.max()] is [-Infinity] and adding
    one keeps it.  Every article added afterwards gets the identifier
    [-Infinity], the counter never moves, and the file records the identifier
    as [null]. *)
Theorem load_empty_list_counter :
  nextId (this (exec loadArticles (fresh (Some [])))) = NegInfinity
  ∧ nextId new_MiniSearchEngine = Int 1
  ∧ eval (addArticle "Title" "Text" None 1000 true) (exec loadArticles (fresh (Some [])))
    = Normal (Article.mk (Num NegInfinity) "Title" "Text" [] 1000)
  ∧ nextId (this (exec (addArticle "Title" "Text" None 1000 true)
                       (exec loadArticles (fresh (Some []))))) = NegInfinity
  ∧ file (exec (addArticle "Title" "Text" None 1000 true)
               (exec loadArticles (fresh (Some []))))
    = Some [Json.mk None "Title" "Text" [] 1000].
Proof. repeat split; vm_compute; reflexivity. Qed.

(** ** Indexing *)

Lemma push_bucket_indexed (o o' : gmap string (list idval)) (k : string) (i : idval) :
  push_bucket o k i = Normal o' →
  indexed o' k i ∧ ∀ k' j, indexed o k' j → indexed o' k' j.
Proof.
  unfold push_bucket, get_property, indexed.
  destruct (o !! k) as [ids|] eqn:Ek.
  - intros [= <-]. split.
    + exists (ids ++ [i]). rewrite lookup_insert_eq. split; [reflexivity|].
      apply elem_of_app. right. left.
    + intros k' j (ids' & Hk' & Hj). destruct (decide (k = k')) as [<-|Hne].
      * exists (ids ++ [i]). rewrite lookup_insert_eq. split; [reflexivity|].
        apply elem_of_app. left. congruence.
      * exists ids'. rewrite lookup_insert_ne by assumption. auto.
  - case_bool_decide; [discriminate|]. intros [= <-]. split.
    + exists [i]. rewrite lookup_insert_eq. split; [reflexivity|left].
    + intros k' j (ids' & Hk' & Hj). destruct (decide (k = k')) as [<-|Hne]; [congruence|].
      exists ids'. rewrite lookup_insert_ne by assumption. auto.
Qed.

Lemma index_keyword_indexed (i : idval) (k : string) (w : world) :
  (eval (index_keyword i k) w = Normal tt →
     indexed (Index.keywords (index (this (exec (index_keyword i k) w)))) k i)
  ∧ (∀ k' j, indexed (Index.keywords (index (this w))) k' j →
       indexed (Index.keywords (index (this (exec (index_keyword i k) w)))) k' j)
  ∧ Index.tags (index (this (exec (index_keyword i k) w))) = Index.tags (index (this w)).
Proof.
  unfold index_keyword. unfold_M.
  destruct (push_bucket (Index.keywords (index (this w))) k i) as [o'| |] eqn:E; simpl;
    try (split; [discriminate|auto]).
  destruct (push_bucket_indexed _ _ _ _ E). auto.
Qed.

Lemma index_tag_indexed (i : idval) (t : string) (w : world) :
  (eval (index_tag i t) w = Normal tt →
     indexed (Index.tags (index (this (exec (index_tag i t) w)))) (toLowerCase t) i)
  ∧ (∀ k' j, indexed (Index.tags (index (this w))) k' j →
       indexed (Index.tags (index (this (exec (index_tag i t) w)))) k' j)
  ∧ Index.keywords (index (this (exec (index_tag i t) w))) = Index.keywords (index (this w)).
Proof.
  unfold index_tag. unfold_M.
  destruct (push_bucket (Index.tags (index (this w))) (toLowerCase t) i) as [o'| |] eqn:E; simpl;
    try (split; [discriminate|auto]).
  destruct (push_bucket_indexed _ _ _ _ E). auto.
Qed.

(** A [forEach] that completes has established, for each element, what its
    callback establishes, when the later callbacks keep it. *)
Lemma forEach_establishes {A} (f : A → M unit) (Q : A → world → Prop) (l : list A) :
  (∀ x w, eval (f x) w = Normal tt → Q x (exec (f x) w)) →
  (∀ x y w, Q y w → Q y (exec (f x) w)) →
  ∀ w, eval (forEach l f) w = Normal tt →
       ∀ x, x ∈ l → Q x (exec (forEach l f) w).
Proof.
  intros Hest Hkeep. induction l as [|y l IH]; intros w Hn x Hx; [inversion Hx|].
  pose proof (forEach_preserves (Q y) f l (λ x w, Hkeep x y w)) as Hp.
  unfold eval, exec in *. simpl in *. unfold mbind, M_bind in *.
  specialize (Hest y w).
  destruct (f y w) as [[[]| |] w1] eqn:E; simpl in *; try discriminate.
  apply elem_of_cons in Hx as [->|Hx].
  - apply Hp, Hest. reflexivity.
  - apply IH; assumption.
Qed.

(** An article whose indexing completes is in the index in full. *)
Lemma indexArticle_fully_indexed (a : Article.t) (w : world) :
  eval (indexArticle a) w = Normal tt →
  fully_indexed (this (exec (indexArticle a) w)) a.
Proof.
  unfold indexArticle, eval, exec, mbind, M_bind.
  pose proof (forEach_establishes (index_keyword (Article.id a))
    (λ k w', indexed (Index.keywords (index (this w'))) k (Article.id a))
    (article_keywords a)
    (λ k w', proj1 (index_keyword_indexed (Article.id a) k w'))
    (λ k k' w', proj1 (proj2 (index_keyword_indexed (Article.id a) k w')) k' (Article.id a))
    w) as Hk.
  unfold eval, exec in Hk.
  destruct (forEach (article_keywords a) _ w) as [[[]| |] w1] eqn:E1; simpl in *;
    try discriminate.
  specialize (Hk eq_refl).
  pose proof (forEach_establishes (index_tag (Article.id a))
    (λ t w', indexed (Index.tags (index (this w'))) (toLowerCase t) (Article.id a))
    (Article.tags a)
    (λ t w', proj1 (index_tag_indexed (Article.id a) t w'))
    (λ t t' w', proj1 (proj2 (index_tag_indexed (Article.id a) t w'))
                  (toLowerCase t') (Article.id a))
    w1) as Ht.
  pose proof (forEach_preserves
    (λ w', ∀ k, k ∈ article_keywords a →
                indexed (Index.keywords (index (this w'))) k (Article.id a))
    (index_tag (Article.id a)) (Article.tags a)) as Hkeep.
  unfold eval, exec in Ht, Hkeep.
  intros Hn. split.
  - apply Hkeep; [|exact Hk]. intros t w' H k Hin.
    destruct (index_tag_indexed (Article.id a) t w') as (_ & _ & Heq).
    unfold exec in Heq. rewrite Heq. apply H, Hin.
  - apply Ht, Hn.
Qed.

(** When [addArticle] returns, the article it returns is stored under the
    identifier it was given and is in the index in full. *)
Lemma addArticle_fully_indexed (title content : string) (tags : option (list string))
    (now : Z) (fs_ok : bool) (w : world) (a : Article.t) :
  eval (addArticle title content tags now fs_ok) w = Normal a →
  a ∈ articles (this (exec (addArticle title content tags now fs_ok) w))
  ∧ fully_indexed (this (exec (addArticle title content tags now fs_ok) w)) a.
Proof.
  intros H.
  destruct (addArticle_store title content tags now fs_ok w) as ([Hr|[e Hr]] & Ha & _);
    [|congruence].
  rewrite Hr in H. injection H as <-. split.
  - rewrite Ha. apply elem_of_app. right. left.
  - clear Ha. revert Hr. unfold addArticle. unfold_M.
    set (a := Article.mk _ _ _ _ _). set (w1 := mkWorld _ _).
    pose proof (indexArticle_fully_indexed a w1) as Hi. unfold eval, exec in Hi.
    destruct (indexArticle a w1) as [[[]| |] w2]; simpl; try discriminate.
    intros _. specialize (Hi eq_refl).
    unfold persistArticles. destruct fs_ok; exact Hi.
Qed.

(** ** When indexing completes *)

Lemma push_bucket_plain (o : gmap string (list idval)) (k : string) (i : idval) :
  plain_key k → ∃ o', push_bucket o k i = Normal o'.
Proof.
  unfold plain_key, push_bucket, get_property. intros Hk.
  destruct (o !! k); [eauto|]. rewrite bool_decide_eq_false_2 by assumption. eauto.
Qed.

Lemma forEach_completes {A} (f : A → M unit) (l : list A) :
  Forall (λ x, ∀ w, eval (f x) w = Normal tt) l →
  ∀ w, eval (forEach l f) w = Normal tt.
Proof.
  induction 1 as [|x l Hx Hl IH]; intros w; [reflexivity|].
  unfold eval in *. simpl. unfold mbind, M_bind.
  specialize (Hx w). destruct (f x w) as [c w1]. simpl in Hx. subst c. apply IH.
Qed.

(** Indexing completes when no keyword and no lowercased tag of the article
    is a property name of [Object.prototype]. *)
Lemma indexArticle_completes (a : Article.t) (w : world) :
  Forall plain_key (article_keywords a) →
  Forall (λ tag, plain_key (toLowerCase tag)) (Article.tags a) →
  eval (indexArticle a) w = Normal tt.
Proof.
  intros Hk Ht. unfold indexArticle, eval, mbind, M_bind.
  pose proof (forEach_completes (index_keyword (Article.id a)) (article_keywords a)) as Hfk.
  pose proof (forEach_completes (index_tag (Article.id a)) (Article.tags a)) as Hft.
  unfold eval in Hfk, Hft.
  rewrite (surjective_pairing (forEach (article_keywords a) _ w)), Hfk.
  - apply Hft. eapply Forall_impl; [exact Ht|]. simpl. intros t Hp w'.
    unfold index_tag. unfold_M.
    destruct (push_bucket_plain (Index.tags (index (this w'))) (toLowerCase t) (Article.id a) Hp)
      as [o' ->]. reflexivity.
  - eapply Forall_impl; [exact Hk|]. simpl. intros k Hp w'.
    unfold index_keyword. unfold_M.
    destruct (push_bucket_plain (Index.keywords (index (this w'))) k (Article.id a) Hp)
      as [o' ->]. reflexivity.
Qed.

(** [addArticle] returns the article it made, with the counter's value as
    identifier, when no keyword and no lowercased tag of the article is a
    property name of [Object.prototype]. *)
Lemma addArticle_completes (title content : string) (tags : option (list string))
    (now : Z) (fs_ok : bool) (w : world) :
  let a := Article.mk (Num (nextId (this w))) title content (default [] tags) now in
  Forall plain_key (article_keywords a) →
  Forall (λ tag, plain_key (toLowerCase tag)) (Article.tags a) →
  eval (addArticle title content tags now fs_ok) w = Normal a.
Proof.
  intros a Hk Ht. unfold addArticle. unfold_M. fold a.
  set (w1 := mkWorld _ _).
  pose proof (indexArticle_completes a w1 Hk Ht) as Hi. unfold eval in Hi.
  destruct (indexArticle a w1) as [c w2]. simpl in Hi. subst c. reflexivity.
Qed.

(** C3 fails on a name that [Object.prototype] answers for.  The request
    adds an article whose title begins with "Constructor".  The lookup of the
    keyword "constructor" in the keyword mapping finds the inherited
    constructor function, which is truthy and has no [push]: indexing throws
    and the request is answered 500.  The article is in the store by then, with
    identifier 1, and can be fetched; but no keyword and no tag of it is in the
    index, a search for its words finds nothing, and the file is not written. *)
Theorem constructor_keyword_not_indexed :
  eval (express (post_articles constructor_body 1000 true)) (fresh None)
    = Normal (mkResponse 500 (ErrorJson "Something went wrong!"))
  ∧ eval (addArticle "Constructor injection" "explained" (Some ["patterns"]) 1000 true)
         (fresh None) = Throw TypeError
  ∧ articles (this (exec (express (post_articles constructor_body 1000 true)) (fresh None)))
    = [constructor_article]
  ∧ article_keywords constructor_article = ["constructor"; "injection"; "explained"]
  ∧ index (this (exec (express (post_articles constructor_body 1000 true)) (fresh None)))
    = Index.mk ∅ ∅
  ∧ file (exec (express (post_articles constructor_body 1000 true)) (fresh None)) = None
  ∧ eval (get_articles_id "1")
         (exec (express (post_articles constructor_body 1000 true)) (fresh None))
    = Normal (mkResponse 200 (ArticleJson constructor_article))
  ∧ eval (searchArticles "injection" "relevance")
         (exec (express (post_articles constructor_body 1000 true)) (fresh None))
    = Normal [].
Proof. repeat split; vm_compute; reflexivity. Qed.

(** ** The index stays within the store *)

Lemma push_bucket_bucket (o o' : gmap string (list idval)) (k : string) (i : idval) :
  push_bucket o k i = Normal o' →
  ∀ k' j, j ∈ bucket o' k' → j = i ∨ j ∈ bucket o k'.
Proof.
  unfold push_bucket, get_property, bucket.
  destruct (o !! k) as [ids|] eqn:Ek.
  - intros [= <-] k' j. destruct (decide (k = k')) as [<-|Hne].
    + rewrite lookup_insert_eq, Ek. simpl. rewrite elem_of_app, list_elem_of_singleton. tauto.
    + rewrite lookup_insert_ne by assumption. auto.
  - case_bool_decide; [discriminate|]. intros [= <-] k' j.
    destruct (decide (k = k')) as [<-|Hne].
    + rewrite lookup_insert_eq. simpl. rewrite list_elem_of_singleton. auto.
    + rewrite lookup_insert_ne by assumption. auto.
Qed.

Lemma forEach_preserves_in {A} (P : world → Prop) (f : A → M unit) (l : list A) :
  (∀ x w, x ∈ l → P w → P (exec (f x) w)) →
  ∀ w, P w → P (exec (forEach l f) w).
Proof.
  induction l as [|x l IH]; intros Hf w Hw; [exact Hw|].
  unfold exec in *. simpl. unfold mbind, M_bind.
  pose proof (Hf x w ltac:(left) Hw) as Hx.
  destruct (f x w) as [[[]| |] w']; simpl in *; auto.
  apply IH; [|exact Hx]. intros y w0 Hy. apply Hf. right. exact Hy.
Qed.

Lemma indexArticle_within_store (a : Article.t) (w : world) :
  Article.id a ∈ Article.id <$> articles (this w) →
  index_within_store (this w) →
  index_within_store (this (exec (indexArticle a) w)).
Proof.
  intros Ha Hw.
  set (P := λ w', articles (this w') = articles (this w) ∧ index_within_store (this w')).
  assert (Hk : ∀ k w', P w' → P (exec (index_keyword (Article.id a) k) w')).
  { intros k w' [Hart Hin]. unfold P.
    destruct (index_keyword_store (Article.id a) k w') as (Hart' & _).
    split; [congruence|]. revert Hart'. unfold index_keyword, index_within_store in *. unfold_M.
    destruct (push_bucket _ k _) as [o'| |] eqn:E; simpl; intros _; try exact Hin.
    intros k' j [Hj|Hj]; [|apply (Hin k'); auto].
    apply (push_bucket_bucket _ _ _ _ E) in Hj as [->|Hj]; [congruence|apply (Hin k'); auto]. }
  assert (Ht : ∀ t w', P w' → P (exec (index_tag (Article.id a) t) w')).
  { intros t w' [Hart Hin]. unfold P.
    destruct (index_tag_store (Article.id a) t w') as (Hart' & _).
    split; [congruence|]. revert Hart'. unfold index_tag, index_within_store in *. unfold_M.
    destruct (push_bucket _ (toLowerCase t) _) as [o'| |] eqn:E; simpl; intros _; try exact Hin.
    intros k' j [Hj|Hj]; [apply (Hin k'); auto|].
    apply (push_bucket_bucket _ _ _ _ E) in Hj as [->|Hj]; [congruence|apply (Hin k'); auto]. }
  assert (H1 : P (exec (forEach (article_keywords a) (index_keyword (Article.id a))) w)).
  { apply forEach_preserves; [exact Hk|]. split; [reflexivity|exact Hw]. }
  unfold indexArticle, exec in *. unfold mbind, M_bind.
  destruct (forEach (article_keywords a) _ w) as [[[]| |] w1]; simpl in *; try apply H1.
  apply (forEach_preserves P _ _ Ht w1 H1).
Qed.

Lemma addArticle_within_store (title content : string) (tags : option (list string))
    (now : Z) (fs_ok : bool) (w : world) :
  index_within_store (this w) →
  index_within_store (this (exec (addArticle title content tags now fs_ok) w)).
Proof.
  intros Hw. unfold addArticle. unfold_M.
  set (a := Article.mk _ _ _ _ _). set (w1 := mkWorld _ _).
  assert (H1 : index_within_store (this (exec (indexArticle a) w1))).
  { apply indexArticle_within_store; unfold w1; cbn [this articles index].
    - apply (list_elem_of_fmap_2 Article.id), elem_of_app. right. left.
    - intros k i Hi. apply (Hw k) in Hi. apply list_elem_of_fmap in Hi as (b & -> & Hb).
      apply (list_elem_of_fmap_2 Article.id), elem_of_app. left. exact Hb. }
  unfold exec in H1.
  destruct (indexArticle a w1) as [[[]| |] w2]; simpl in *; try exact H1.
  unfold persistArticles. destruct fs_ok; exact H1.
Qed.

Lemma loadArticles_within_store (w : world) :
  index_within_store (this w) →
  index_within_store (this (exec loadArticles w)).
Proof.
  intros Hw. unfold loadArticles, try_catch, readFile. unfold_M.
  destruct (file w) as [data|]; simpl; [|exact Hw].
  set (w1 := mkWorld _ _).
  set (P := λ w', articles (this w') = parse_article <$> data ∧ index_within_store (this w')).
  assert (Hp : P (exec (forEach (parse_article <$> data) indexArticle) w1)).
  { apply forEach_preserves_in.
    - intros a w' Ha [Hart Hin]. split.
      + destruct (indexArticle_store a w') as (-> & _). exact Hart.
      + apply indexArticle_within_store; [|exact Hin].
        rewrite Hart. apply list_elem_of_fmap. eauto.
    - split; [reflexivity|]. intros k i. unfold bucket. simpl.
      rewrite !lookup_empty. simpl. rewrite elem_of_nil. tauto. }
  unfold exec in Hp.
  destruct (forEach (parse_article <$> data) indexArticle w1) as [[[]| |] w2];
    simpl in *; apply Hp.
Qed.

Lemma express_world (handler : M response) (w : world) :
  exec (express handler) w = exec handler w.
Proof. unfold exec, express. destruct (handler w) as [[r|e|] w']; reflexivity. Qed.

Lemma handle_within_store (r : request) (w : world) :
  index_within_store (this w) → index_within_store (this (exec (handle r) w)).
Proof.
  intros Hw. unfold handle. rewrite express_world. destruct r as [b now fs_ok|q sort|id].
  - unfold post_articles. destruct (falsy (Body.title b) || falsy (Body.content b)); [exact Hw|].
    pose proof (addArticle_within_store (default "" (Body.title b))
                  (default "" (Body.content b)) (Body.tags b) now fs_ok w Hw) as Ha.
    unfold exec in *. unfold mbind, M_bind.
    destruct (addArticle _ _ _ _ _ w) as [[a| |] w']; exact Ha.
  - unfold get_articles_search. destruct (falsy q); [exact Hw|].
    pose proof (searchArticles_world (default "" q) (default "relevance" sort) w) as Hs.
    unfold exec in *. unfold mbind, M_bind.
    destruct (searchArticles _ _ w) as [[l| |] w']; simpl in *; subst w'; exact Hw.
  - unfold exec. rewrite get_articles_id_run. exact Hw.
Qed.

(** In every world the process reaches, each identifier in a bucket of the
    index is the identifier of a stored article. *)
Theorem reachable_index_within_store (w : world) :
  reachable w → index_within_store (this w).
Proof.
  induction 1 as [f|r w Hr IH].
  - apply loadArticles_within_store. intros k i. unfold bucket. simpl.
    rewrite !lookup_empty. simpl. rewrite elem_of_nil. tauto.
  - apply handle_within_store, IH.
Qed.

(** In a reachable world the results of a search cover the candidates by
    identifier: each identifier in the keyword or tag bucket of a query token
    is the identifier of one of the results. *)
Theorem reachable_search_covers_candidates (query sortBy : string) (w : world)
    (results : list scored) :
  reachable w →
  eval (searchArticles query sortBy) w = Normal results →
  ∀ term i, term ∈ query_tokens query →
    i ∈ bucket (Index.keywords (index (this w))) term
    ∨ i ∈ bucket (Index.tags (index (this w))) term →
    i ∈ (λ r, Article.id (doc r)) <$> results.
Proof.
  intros Hw H term i Ht Hi.
  destruct (search_candidates _ _ _ _ H) as (ids & _ & Hids & Hp).
  pose proof (reachable_index_within_store w Hw term i Hi) as Hs.
  apply list_elem_of_fmap in Hs as (a & -> & Ha).
  assert (Hin : a ∈ doc <$> results).
  { rewrite Hp. apply list_elem_of_filter. split; [|exact Ha]. apply Hids. eauto. }
  apply list_elem_of_fmap in Hin as (r & -> & Hr).
  apply list_elem_of_fmap. eauto.
Qed.

Lemma example_world_requests :
  example_world
  = exec (handle (PostArticle (Body.mk (Some "Dog Training") (Some "Training your dog")
                                 (Some ["pets"; "training"])) 2000 true))
      (exec (handle (PostArticle (Body.mk (Some "Cats and Dogs") (Some "Cats are great pets")
                                    (Some ["pets"; "animals"])) 1000 true))
         (exec loadArticles (fresh None))).
Proof. vm_compute. reflexivity. Qed.

Lemma reachable_example_world : reachable example_world.
Proof. rewrite example_world_requests. repeat constructor. Qed.

(** ** Ties *)

Section stable.
Context {A : Type} (key : A → Z).

Let cmp (a b : A) : Z := key b - key a.



End stable.


(** ** Repeating a search, and the running example *)

(** A search repeated with nothing added in between returns the same list. *)
Theorem search_idempotent (query sortBy : string) (w : world) :
  eval (searchArticles query sortBy) (exec (searchArticles query sortBy) w)
  = eval (searchArticles query sortBy) w.
Proof. rewrite searchArticles_world. reflexivity. Qed.

(** The running example: "Cats and Dogs" is indexed under "dogs", not under
    "dog", so that a search for "dog" returns "Dog Training" alone, with score
    2; a search for "pets" returns both articles, the second through its tag;
    a search for an unknown word returns the empty list; and no article has
    identifier 999. *)
Theorem running_example :
  articles (this example_world) = [cats_article; dog_article]
  ∧ eval (searchArticles "dog" "relevance") example_world = Normal [mkScored dog_article 2]
  ∧ eval (searchArticles "dogs" "relevance") example_world = Normal [mkScored cats_article 1]
  ∧ eval (searchArticles "pets" "relevance") example_world
    = Normal [mkScored cats_article 1; mkScored dog_article 0]
  ∧ eval (searchArticles "pets" "date") example_world
    = Normal [mkScored dog_article 0; mkScored cats_article 1]
  ∧ eval (searchArticles "nonexistent" "relevance") example_world = Normal []
  ∧ eval (get_articles_id "999") example_world = Normal not_found.
Proof. repeat split; vm_compute; reflexivity. Qed.

(** ** Instances *)

Lemma addArticle_fully_indexed_witness :
  cats_article
    ∈ articles (this (exec (addArticle "Cats and Dogs" "Cats are great pets"
                              (Some ["pets"; "animals"]) 1000 true) (fresh None)))
  ∧ fully_indexed (this (exec (addArticle "Cats and Dogs" "Cats are great pets"
                                 (Some ["pets"; "animals"]) 1000 true) (fresh None)))
      cats_article.
Proof.
  apply (addArticle_fully_indexed "Cats and Dogs" "Cats are great pets"
           (Some ["pets"; "animals"]) 1000 true (fresh None) cats_article).
  vm_compute. reflexivity.
Defined.

Lemma addArticle_completes_witness :
  eval (addArticle "Cats and Dogs" "Cats are great pets" (Some ["pets"; "animals"]) 1000 true)
       (fresh None) = Normal cats_article.
Proof.
  apply (addArticle_completes "Cats and Dogs" "Cats are great pets"
           (Some ["pets"; "animals"]) 1000 true (fresh None)).
  - apply (bool_decide_unpack _). vm_compute. exact I.
  - apply (bool_decide_unpack _). vm_compute. exact I.
Defined.


Lemma reachable_search_covers_candidates_witness :
  Num (Int 2) ∈ (λ r, Article.id (doc r)) <$> [mkScored cats_article 1; mkScored dog_article 0].
Proof.
  apply (reachable_search_covers_candidates "pets" "relevance" example_world
           [mkScored cats_article 1; mkScored dog_article 0]
           reachable_example_world) with (term := "pets").
  - vm_compute. reflexivity.
  - vm_compute. left.
  - right. vm_compute. right. left.
Defined.


(** * More of the engine *)

(** ** The indexing loops run on the index alone *)

Lemma forEach_index_keyword (i : idval) (ks : list string) (w : world) :
  forEach ks (index_keyword i) w
  = (fst (push_each (Index.keywords (index (this w))) ks i),
     set_index w (Index.mk (snd (push_each (Index.keywords (index (this w))) ks i))
                           (Index.tags (index (this w))))).
Proof.
  revert w. induction ks as [|k ks IH]; intros w.
  - destruct w as [[l [kw tg] n] f]. reflexivity.
  - cbn [forEach push_each]. unfold mbind, M_bind, index_keyword at 1.
    unfold mbind, M_bind, get_this, lift, set_this.
    destruct (push_bucket (Index.keywords (index (this w))) k i) as [o'| |] eqn:E.
    + rewrite IH. reflexivity.
    + destruct w as [[l [kw tg] n] f]. reflexivity.
    + destruct w as [[l [kw tg] n] f]. reflexivity.
Qed.

Lemma forEach_index_tag (i : idval) (ts : list string) (w : world) :
  forEach ts (index_tag i) w
  = (fst (push_each (Index.tags (index (this w))) (toLowerCase <$> ts) i),
     set_index w (Index.mk (Index.keywords (index (this w)))
                           (snd (push_each (Index.tags (index (this w)))
                                   (toLowerCase <$> ts) i)))).
Proof.
  revert w. induction ts as [|t ts IH]; intros w.
  - destruct w as [[l [kw tg] n] f]. reflexivity.
  - rewrite fmap_cons. cbn [forEach push_each]. unfold mbind, M_bind, index_tag at 1.
    unfold mbind, M_bind, get_this, lift, set_this.
    destruct (push_bucket (Index.tags (index (this w))) (toLowerCase t) i) as [o'| |] eqn:E.
    + rewrite IH. reflexivity.
    + destruct w as [[l [kw tg] n] f]. reflexivity.
    + destruct w as [[l [kw tg] n] f]. reflexivity.
Qed.

Lemma indexArticle_run (a : Article.t) (w : world) :
  indexArticle a w
  = (fst (index_with a (index (this w))), set_index w (snd (index_with a (index (this w))))).
Proof.
  unfold indexArticle, index_with, mbind, M_bind.
  rewrite forEach_index_keyword.
  destruct (push_each (Index.keywords (index (this w))) (article_keywords a) (Article.id a))
    as [[[]| |] o1]; cbn [fst snd]; try reflexivity.
  rewrite forEach_index_tag. cbn [set_index this index Index.tags Index.keywords].
  destruct (push_each (Index.tags (index (this w))) (toLowerCase <$> Article.tags a)
              (Article.id a)) as [c o2]. reflexivity.
Qed.

Lemma forEach_indexArticle (l : list Article.t) (w : world) :
  forEach l indexArticle w
  = (fst (index_all l (index (this w))), set_index w (snd (index_all l (index (this w))))).
Proof.
  revert w. induction l as [|a l IH]; intros w.
  - destruct w as [[l' ix n] f]. reflexivity.
  - cbn [forEach index_all]. unfold mbind, M_bind. rewrite indexArticle_run.
    destruct (index_with a (index (this w))) as [[[]| |] ix']; cbn [fst snd]; try reflexivity.
    rewrite IH. reflexivity.
Qed.

(** ** What a push does to the buckets *)

Lemma push_bucket_exact (o o' : gmap string (list idval)) (k : string) (i : idval) :
  push_bucket o k i = Normal o' →
  ∀ k', bucket o' k' = bucket o k' ++ (if decide (k = k') then [i] else []).
Proof.
  unfold push_bucket, get_property, bucket. intros H k'.
  destruct (o !! k) as [ids|] eqn:Ek.
  - injection H as <-. case_decide as Hk.
    + subst k'. rewrite lookup_insert_eq, Ek. reflexivity.
    + rewrite lookup_insert_ne by assumption. rewrite app_nil_r. reflexivity.
  - case_bool_decide; [discriminate|]. injection H as <-. case_decide as Hk.
    + subst k'. rewrite lookup_insert_eq, Ek. reflexivity.
    + rewrite lookup_insert_ne by assumption. rewrite app_nil_r. reflexivity.
Qed.

Lemma push_bucket_throws (o : gmap string (list idval)) (k : string) (i : idval) (e : exn) :
  push_bucket o k i = Throw e → e = TypeError ∧ o !! k = None ∧ ¬ plain_key k.
Proof.
  unfold push_bucket, get_property, plain_key.
  destruct (o !! k); [discriminate|]. case_bool_decide; [|discriminate].
  intros [= <-]. auto.
Qed.

Lemma count_key_cons (k x : string) (ks : list string) :
  count_key k (x :: ks) = ((if decide (x = k) then 1 else 0) + count_key k ks)%nat.
Proof. unfold count_key. rewrite filter_cons. case_decide; reflexivity. Qed.

Lemma push_each_exact (o o' : gmap string (list idval)) (ks : list string) (i : idval) :
  push_each o ks i = (Normal tt, o') →
  ∀ k, bucket o' k = bucket o k ++ replicate (count_key k ks) i.
Proof.
  revert o. induction ks as [|x ks IH]; intros o H k.
  - injection H as <-. unfold count_key. simpl. rewrite app_nil_r. reflexivity.
  - cbn [push_each] in H. destruct (push_bucket o x i) as [o1| |] eqn:E; try discriminate.
    rewrite (IH _ H k), (push_bucket_exact _ _ _ _ E k), count_key_cons, <- app_assoc.
    f_equal. case_decide; reflexivity.
Qed.

Lemma push_each_prefix (o : gmap string (list idval)) (ks : list string) (i : idval) (k : string) :
  bucket o k `prefix_of` bucket (snd (push_each o ks i)) k.
Proof.
  revert o. induction ks as [|x ks IH]; intros o; [reflexivity|].
  cbn [push_each]. destruct (push_bucket o x i) as [o1| |] eqn:E; try reflexivity.
  etransitivity; [|apply IH]. rewrite (push_bucket_exact _ _ _ _ E k). apply prefix_app_r.
  reflexivity.
Qed.

Lemma push_each_not_beyond (o : gmap string (list idval)) (ks : list string) (i : idval) :
  fst (push_each o ks i) ≠ Beyond.
Proof.
  revert o. induction ks as [|x ks IH]; intros o; [discriminate|].
  cbn [push_each]. pose proof (push_bucket_not_beyond o x i).
  destruct (push_bucket o x i); [apply IH|discriminate|congruence].
Qed.

(** The buckets after indexing an article, in full: the bucket of a key gains
    the article's identifier once for every time the key occurs among the
    article's keywords (or lowercased tags), behind what it held; nothing else
    changes. *)
Theorem indexArticle_buckets (a : Article.t) (w : world) :
  eval (indexArticle a) w = Normal tt →
  (∀ k, bucket (Index.keywords (index (this (exec (indexArticle a) w)))) k
        = bucket (Index.keywords (index (this w))) k
          ++ replicate (count_key k (article_keywords a)) (Article.id a))
  ∧ (∀ k, bucket (Index.tags (index (this (exec (indexArticle a) w)))) k
          = bucket (Index.tags (index (this w))) k
            ++ replicate (count_key k (toLowerCase <$> Article.tags a)) (Article.id a))
  ∧ articles (this (exec (indexArticle a) w)) = articles (this w)
  ∧ nextId (this (exec (indexArticle a) w)) = nextId (this w)
  ∧ file (exec (indexArticle a) w) = file w.
Proof.
  unfold eval, exec. rewrite indexArticle_run. cbn [fst snd]. unfold index_with.
  destruct (push_each (Index.keywords (index (this w))) (article_keywords a) (Article.id a))
    as [[[]| |] o1] eqn:E1; cbn [fst snd]; try discriminate.
  destruct (push_each (Index.tags (index (this w))) (toLowerCase <$> Article.tags a)
              (Article.id a)) as [c o2] eqn:E2. cbn [fst snd].
  intros ->. repeat split.
  - apply (push_each_exact _ _ _ _ E1).
  - apply (push_each_exact _ _ _ _ E2).
Qed.

Lemma indexArticle_buckets_witness :
  (∀ k, bucket (Index.keywords (index (this (exec (indexArticle short_dog_article)
                                               (fresh None))))) k
        = bucket (Index.keywords (index (this (fresh None)))) k
          ++ replicate (count_key k (article_keywords short_dog_article))
               (Article.id short_dog_article))
  ∧ (∀ k, bucket (Index.tags (index (this (exec (indexArticle short_dog_article)
                                                 (fresh None))))) k
          = bucket (Index.tags (index (this (fresh None)))) k
            ++ replicate (count_key k (toLowerCase <$> Article.tags short_dog_article))
                 (Article.id short_dog_article))
  ∧ articles (this (exec (indexArticle short_dog_article) (fresh None)))
    = articles (this (fresh None))
  ∧ nextId (this (exec (indexArticle short_dog_article) (fresh None)))
    = nextId (this (fresh None))
  ∧ file (exec (indexArticle short_dog_article) (fresh None)) = file (fresh None).
Proof.
  apply (indexArticle_buckets short_dog_article (fresh None)). vm_compute. reflexivity.
Defined.

(** ** The methods, run *)

Lemma addArticle_run (title content : string) (tags : option (list string))
    (now : Z) (fs_ok : bool) (w : world) :
  let a := new_article title content tags now w in
  let r := index_with a (index (this w)) in
  let e' := mkEngine (articles (this w) ++ [a]) (snd r) (number_succ (nextId (this w))) in
  addArticle title content tags now fs_ok w
  = match fst r with
    | Normal _ =>
        (Normal a,
         mkWorld e' (if fs_ok then Some (stringify_article <$> articles e') else file w))
    | Throw e => (Throw e, mkWorld e' (file w))
    | Beyond => (Beyond, mkWorld e' (file w))
    end.
Proof.
  intros a r e'. unfold addArticle. unfold_M. fold (new_article title content tags now w).
  fold a. rewrite indexArticle_run. cbn [fst snd set_index this index articles nextId file].
  fold r. destruct r as [[[]| |] ix]; cbn [fst snd]; try reflexivity.
  unfold persistArticles. destruct fs_ok; reflexivity.
Qed.

Lemma index_all_not_beyond (l : list Article.t) (ix : Index.t) :
  fst (index_all l ix) ≠ Beyond.
Proof.
  revert ix. induction l as [|a l IH]; intros ix; [discriminate|].
  cbn [index_all]. destruct (index_with a ix) as [[[]| |] ix'] eqn:E; cbn [fst].
  - apply IH.
  - discriminate.
  - exfalso. revert E. unfold index_with.
    pose proof (push_each_not_beyond (Index.keywords ix) (article_keywords a) (Article.id a)).
    pose proof (push_each_not_beyond (Index.tags ix) (toLowerCase <$> Article.tags a)
                  (Article.id a)).
    destruct (push_each (Index.keywords ix) _ _) as [[[]| |] o1];
      destruct (push_each (Index.tags ix) _ _) as [[[]| |] o2]; cbn [fst] in *;
      intros [=]; congruence.
Qed.

Lemma loadArticles_run (w : world) :
  loadArticles w
  = match file w with
    | None => (Normal tt, w)
    | Some data =>
        let l := parse_article <$> data in
        (Normal tt,
         mkWorld (mkEngine l (snd (index_all l (Index.mk ∅ ∅)))
                    (number_succ (Math_max ((λ a, ToNumber (Article.id a)) <$> l))))
                 (Some data))
    end.
Proof.
  unfold loadArticles, try_catch, readFile. unfold_M.
  destruct (file w) as [data|] eqn:Ef; [|reflexivity].
  cbn [this articles index nextId file]. rewrite forEach_indexArticle.
  cbn [set_index this articles index nextId file].
  pose proof (index_all_not_beyond (parse_article <$> data) (Index.mk ∅ ∅)) as Hb.
  destruct (index_all (parse_article <$> data) (Index.mk ∅ ∅)) as [[[]| |] ix];
    cbn [fst snd] in *; unfold set_index; cbn [this articles index nextId file];
    rewrite ?Ef; try reflexivity. congruence.
Qed.

Lemma handle_post_run (b : Body.t) (now : Z) (fs_ok : bool) (w : world) :
  falsy (Body.title b) || falsy (Body.content b) = false →
  let a := new_article (default "" (Body.title b)) (default "" (Body.content b))
             (Body.tags b) now w in
  let r := index_with a (index (this w)) in
  let e' := mkEngine (articles (this w) ++ [a]) (snd r) (number_succ (nextId (this w))) in
  handle (PostArticle b now fs_ok) w
  = match fst r with
    | Normal _ =>
        (Normal (mkResponse 201 (ArticleJson a)),
         mkWorld e' (if fs_ok then Some (stringify_article <$> articles e') else file w))
    | Throw e =>
        (Normal (mkResponse 500 (ErrorJson "Something went wrong!")), mkWorld e' (file w))
    | Beyond => (Beyond, mkWorld e' (file w))
    end.
Proof.
  intros Hg a r e'. unfold handle, express, post_articles. rewrite Hg.
  unfold mbind, M_bind. rewrite addArticle_run. fold a. fold r. fold e'.
  destruct (fst r) as [[]| |]; reflexivity.
Qed.

Lemma handle_read_run (r : request) (w : world) :
  accepted_add r = false → exec (handle r) w = w.
Proof.
  intros Hr. unfold handle. rewrite express_world. destruct r as [b now fs_ok|q sort|id].
  - unfold post_articles. cbn [accepted_add] in Hr. apply negb_false_iff in Hr.
    rewrite Hr. reflexivity.
  - unfold get_articles_search. destruct (falsy q); [reflexivity|].
    pose proof (searchArticles_world (default "" q) (default "relevance" sort) w) as Hs.
    unfold exec in *. unfold mbind, M_bind.
    destruct (searchArticles _ _ w) as [[l| |] w']; simpl in *; subst w'; reflexivity.
  - unfold exec. rewrite get_articles_id_run. reflexivity.
Qed.

(** ** Pushes on a tidy mapping *)

Lemma tidy_empty : tidy ∅.
Proof. intros k ids H. rewrite lookup_empty in H. discriminate. Qed.

Lemma push_bucket_run (o : gmap string (list idval)) (k : string) (i : idval) :
  tidy o →
  push_bucket o k i
  = if decide (plain_key k) then Normal (<[k := bucket o k ++ [i]]> o) else Throw TypeError.
Proof.
  intros Ho. unfold push_bucket, get_property, bucket.
  destruct (o !! k) as [ids|] eqn:E.
  - rewrite decide_True by apply (Ho k ids E). reflexivity.
  - unfold plain_key. case_bool_decide as Hk.
    + rewrite decide_False by tauto. reflexivity.
    + rewrite decide_True by assumption. reflexivity.
Qed.

Lemma push_bucket_tidy (o o' : gmap string (list idval)) (k : string) (i : idval) :
  tidy o → push_bucket o k i = Normal o' → tidy o'.
Proof.
  intros Ho. rewrite push_bucket_run by assumption.
  case_decide as Hk; [|discriminate]. intros [= <-] k' ids.
  rewrite lookup_insert_Some. intros [[<- <-]|[_ H]]; [|exact (Ho _ _ H)].
  split; [exact Hk|]. destruct (bucket o k); discriminate.
Qed.

Lemma push_each_tidy (o : gmap string (list idval)) (ks : list string) (i : idval) :
  tidy o → tidy (snd (push_each o ks i)).
Proof.
  revert o. induction ks as [|k ks IH]; intros o Ho; [exact Ho|].
  cbn [push_each]. destruct (push_bucket o k i) as [o'| |] eqn:E; try exact Ho.
  apply IH, (push_bucket_tidy _ _ _ _ Ho E).
Qed.

Lemma push_each_outcome (o : gmap string (list idval)) (ks : list string) (i : idval) :
  tidy o →
  fst (push_each o ks i) = if decide (Forall plain_key ks) then Normal tt else Throw TypeError.
Proof.
  revert o. induction ks as [|k ks IH]; intros o Ho.
  - rewrite decide_True by constructor. reflexivity.
  - cbn [push_each]. pose proof (λ o', push_bucket_tidy o o' k i Ho) as Ht.
    rewrite push_bucket_run in * by assumption.
    destruct (decide (plain_key k)) as [Hk|Hk].
    + rewrite IH by (apply Ht; reflexivity).
      destruct (decide (Forall plain_key ks)) as [Hks|Hks].
      * rewrite decide_True by (constructor; assumption). reflexivity.
      * rewrite decide_False; [reflexivity|]. intros H. apply Hks. inversion H; assumption.
    + rewrite decide_False; [reflexivity|]. intros H. apply Hk. inversion H; assumption.
Qed.

Lemma push_each_sound (o : gmap string (list idval)) (ks : list string) (i j : idval)
    (k : string) :
  j ∈ bucket (snd (push_each o ks i)) k → j ∈ bucket o k ∨ (j = i ∧ k ∈ ks).
Proof.
  revert o. induction ks as [|x ks IH]; intros o; [auto|].
  cbn [push_each]. destruct (push_bucket o x i) as [o'| |] eqn:E; auto.
  intros H. apply IH in H as [H|[-> H]].
  - rewrite (push_bucket_exact _ _ _ _ E k), elem_of_app in H. destruct H as [H|H]; [auto|].
    case_decide as Hx; [|inversion H]. apply list_elem_of_singleton in H. subst. right.
    split; [reflexivity|left].
  - right. split; [reflexivity|right; exact H].
Qed.

(** ** Indexing an article, on the index *)

Lemma index_with_not_beyond (a : Article.t) (ix : Index.t) : fst (index_with a ix) ≠ Beyond.
Proof.
  unfold index_with.
  pose proof (push_each_not_beyond (Index.keywords ix) (article_keywords a) (Article.id a)).
  pose proof (push_each_not_beyond (Index.tags ix) (toLowerCase <$> Article.tags a)
                (Article.id a)).
  destruct (push_each (Index.keywords ix) _ _) as [[[]| |] o1];
    destruct (push_each (Index.tags ix) _ _) as [[[]| |] o2]; cbn [fst] in *; congruence.
Qed.

Lemma index_with_tidy (a : Article.t) (ix : Index.t) :
  tidy_index ix → tidy_index (snd (index_with a ix)).
Proof.
  intros [Hk Ht]. unfold index_with.
  pose proof (push_each_tidy _ (article_keywords a) (Article.id a) Hk) as Hk'.
  pose proof (push_each_tidy _ (toLowerCase <$> Article.tags a) (Article.id a) Ht) as Ht'.
  destruct (push_each (Index.keywords ix) _ _) as [[[]| |] o1];
    destruct (push_each (Index.tags ix) _ _) as [c o2]; split; assumption.
Qed.

Lemma index_with_outcome (a : Article.t) (ix : Index.t) :
  tidy_index ix →
  fst (index_with a ix)
  = if decide (Forall plain_key (index_keys a)) then Normal tt else Throw TypeError.
Proof.
  intros [Hk Ht]. unfold index_with, index_keys, lowercase_tags.
  pose proof (push_each_outcome _ (article_keywords a) (Article.id a) Hk) as Ek.
  pose proof (push_each_outcome _ (toLowerCase <$> Article.tags a) (Article.id a) Ht) as Et.
  destruct (push_each (Index.keywords ix) _ _) as [c1 o1];
    destruct (push_each (Index.tags ix) _ _) as [c2 o2]; cbn [fst] in *. subst c1 c2.
  destruct (decide (Forall plain_key (article_keywords a))) as [H1|H1].
  - cbn [fst]. destruct (decide (Forall plain_key (toLowerCase <$> Article.tags a))) as [H2|H2].
    + rewrite decide_True by (apply Forall_app; auto). reflexivity.
    + rewrite decide_False; [reflexivity|]. rewrite Forall_app. tauto.
  - cbn [fst]. rewrite decide_False; [reflexivity|]. rewrite Forall_app. tauto.
Qed.

Lemma index_with_prefix (a : Article.t) (ix : Index.t) (k : string) :
  bucket (Index.keywords ix) k `prefix_of` bucket (Index.keywords (snd (index_with a ix))) k
  ∧ bucket (Index.tags ix) k `prefix_of` bucket (Index.tags (snd (index_with a ix))) k.
Proof.
  unfold index_with.
  pose proof (push_each_prefix (Index.keywords ix) (article_keywords a) (Article.id a) k) as Hk.
  pose proof (push_each_prefix (Index.tags ix) (toLowerCase <$> Article.tags a)
                (Article.id a) k) as Ht.
  destruct (push_each (Index.keywords ix) _ _) as [[[]| |] o1];
    destruct (push_each (Index.tags ix) _ _) as [c o2]; split; cbn [snd Index.keywords Index.tags] in *;
    (assumption || reflexivity).
Qed.

Lemma index_with_exact (a : Article.t) (ix : Index.t) (k : string) :
  fst (index_with a ix) = Normal tt →
  bucket (Index.keywords (snd (index_with a ix))) k
  = bucket (Index.keywords ix) k ++ replicate (count_key k (article_keywords a)) (Article.id a)
  ∧ bucket (Index.tags (snd (index_with a ix))) k
    = bucket (Index.tags ix) k ++ replicate (count_key k (lowercase_tags a)) (Article.id a).
Proof.
  unfold index_with, lowercase_tags.
  destruct (push_each (Index.keywords ix) _ _) as [[[]| |] o1] eqn:E1; cbn [fst snd];
    try discriminate.
  destruct (push_each (Index.tags ix) _ _) as [c o2] eqn:E2. cbn [fst snd]. intros ->. split.
  - apply (push_each_exact _ _ _ _ E1).
  - apply (push_each_exact _ _ _ _ E2).
Qed.

Lemma index_with_sound (a : Article.t) (ix : Index.t) (k : string) (j : idval) :
  (j ∈ bucket (Index.keywords (snd (index_with a ix))) k →
   j ∈ bucket (Index.keywords ix) k ∨ (j = Article.id a ∧ k ∈ article_keywords a))
  ∧ (j ∈ bucket (Index.tags (snd (index_with a ix))) k →
     j ∈ bucket (Index.tags ix) k ∨ (j = Article.id a ∧ k ∈ lowercase_tags a)).
Proof.
  unfold index_with, lowercase_tags.
  pose proof (push_each_sound (Index.keywords ix) (article_keywords a) (Article.id a) j k) as Hk.
  pose proof (push_each_sound (Index.tags ix) (toLowerCase <$> Article.tags a)
                (Article.id a) j k) as Ht.
  destruct (push_each (Index.keywords ix) _ _) as [[[]| |] o1];
    destruct (push_each (Index.tags ix) _ _) as [c o2]; split;
    cbn [snd Index.keywords Index.tags] in *; auto.
Qed.

(** ** Indexing a list of articles, on the index *)

Lemma index_all_tidy (l : list Article.t) (ix : Index.t) :
  tidy_index ix → tidy_index (snd (index_all l ix)).
Proof.
  revert ix. induction l as [|a l IH]; intros ix Hix; [exact Hix|].
  cbn [index_all]. pose proof (index_with_tidy a ix Hix) as Ha.
  destruct (index_with a ix) as [[[]| |] ix']; cbn [snd] in *; auto.
Qed.

Lemma index_all_app (l : list Article.t) (a : Article.t) (ix : Index.t) :
  index_all (l ++ [a]) ix
  = match index_all l ix with
    | (Normal _, ix') => index_with a ix'
    | r => r
    end.
Proof.
  revert ix. induction l as [|b l IH]; intros ix.
  - cbn [app index_all]. destruct (index_with a ix) as [[[]| |] ix']; reflexivity.
  - cbn [app index_all]. destruct (index_with b ix) as [[[]| |] ix']; [apply IH|reflexivity..].
Qed.

Lemma postings_snoc (keys : Article.t → list string) (k : string) (l : list Article.t)
    (a : Article.t) :
  postings keys k (l ++ [a]) = postings keys k l ++ replicate (count_key k (keys a)) (Article.id a).
Proof.
  unfold postings. rewrite fmap_app, concat_app. cbn [fmap list_fmap concat].
  rewrite app_nil_r. reflexivity.
Qed.

Lemma index_all_exact (l : list Article.t) (ix : Index.t) (k : string) :
  fst (index_all l ix) = Normal tt →
  bucket (Index.keywords (snd (index_all l ix))) k
  = bucket (Index.keywords ix) k ++ postings article_keywords k l
  ∧ bucket (Index.tags (snd (index_all l ix))) k
    = bucket (Index.tags ix) k ++ postings lowercase_tags k l.
Proof.
  revert ix. induction l as [|a l IH]; intros ix.
  - intros _. unfold postings. cbn. rewrite !app_nil_r. auto.
  - cbn [index_all]. pose proof (index_with_exact a ix k) as Ha.
    destruct (index_with a ix) as [[[]| |] ix']; cbn [fst snd] in *; try discriminate.
    intros H. destruct (IH ix' H) as [-> ->]. destruct (Ha eq_refl) as [-> ->].
    unfold postings. cbn [fmap list_fmap concat]. rewrite <- !app_assoc. auto.
Qed.

Lemma index_all_outcome (l : list Article.t) (ix : Index.t) :
  tidy_index ix →
  Forall (λ a, Forall plain_key (index_keys a)) l →
  fst (index_all l ix) = Normal tt.
Proof.
  intros Hix Hl. revert ix Hix. induction Hl as [|a l Ha Hl IH]; intros ix Hix; [reflexivity|].
  cbn [index_all]. pose proof (index_with_outcome a ix Hix) as Ho.
  pose proof (index_with_tidy a ix Hix) as Ht.
  rewrite decide_True in Ho by assumption.
  destruct (index_with a ix) as [c ix']. cbn [fst snd] in *. subst c. apply IH, Ht.
Qed.

(** ** The index of a running process *)

Lemma handle_tidy (r : request) (w : world) :
  tidy_index (index (this w)) → tidy_index (index (this (exec (handle r) w))).
Proof.
  intros Hw. destruct (accepted_add r) eqn:Er; [|rewrite handle_read_run by assumption; exact Hw].
  destruct r as [b now fs_ok| |]; try discriminate.
  cbn [accepted_add] in Er. apply negb_true_iff in Er.
  unfold exec. rewrite (handle_post_run b now fs_ok w Er).
  set (a := new_article _ _ _ _ _). pose proof (index_with_tidy a _ Hw) as Ha.
  destruct (index_with a (index (this w))) as [[[]| |] ix']; exact Ha.
Qed.

Lemma reachable_tidy (w : world) : reachable w → tidy_index (index (this w)).
Proof.
  induction 1 as [f|r w Hr IH]; [|apply handle_tidy, IH].
  unfold exec, fresh. rewrite loadArticles_run. cbn [file].
  destruct f as [data|]; cbn [snd this index].
  - apply index_all_tidy. split; apply tidy_empty.
  - split; apply tidy_empty.
Qed.

Lemma handle_grows (r : request) (w : world) :
  articles (this w) `prefix_of` articles (this (exec (handle r) w))
  ∧ ∀ k, bucket (Index.keywords (index (this w))) k
           `prefix_of` bucket (Index.keywords (index (this (exec (handle r) w)))) k
         ∧ bucket (Index.tags (index (this w))) k
             `prefix_of` bucket (Index.tags (index (this (exec (handle r) w)))) k.
Proof.
  destruct (accepted_add r) eqn:Er; [|rewrite handle_read_run by assumption; auto].
  destruct r as [b now fs_ok| |]; try discriminate.
  cbn [accepted_add] in Er. apply negb_true_iff in Er.
  unfold exec. rewrite (handle_post_run b now fs_ok w Er).
  set (a := new_article _ _ _ _ _). pose proof (index_with_prefix a (index (this w))) as Ha.
  destruct (index_with a (index (this w))) as [[[]| |] ix']; cbn [fst snd this articles index] in *;
    (split; [apply prefix_app_r; reflexivity|exact Ha]).
Qed.

Lemma serve_snoc (rs : list request) (r : request) (w : world) :
  serve (rs ++ [r]) w = exec (handle r) (serve rs w).
Proof. unfold serve. rewrite foldl_app. reflexivity. Qed.

Lemma serve_reachable (rs : list request) (w : world) : reachable w → reachable (serve rs w).
Proof.
  intros Hw. induction rs as [|r rs IH] using rev_ind; [exact Hw|].
  rewrite serve_snoc. constructor. exact IH.
Qed.

Lemma serve_grows (rs : list request) (w : world) :
  articles (this w) `prefix_of` articles (this (serve rs w))
  ∧ ∀ k, bucket (Index.keywords (index (this w))) k
           `prefix_of` bucket (Index.keywords (index (this (serve rs w)))) k
         ∧ bucket (Index.tags (index (this w))) k
             `prefix_of` bucket (Index.tags (index (this (serve rs w)))) k.
Proof.
  induction rs as [|r rs IH] using rev_ind; [auto|].
  rewrite serve_snoc. destruct IH as [Ha Hb].
  destruct (handle_grows r (serve rs w)) as [Ha' Hb']. split.
  - etransitivity; eassumption.
  - intros k. destruct (Hb k), (Hb' k). split; etransitivity; eassumption.
Qed.

(** The process never takes anything back.  Whatever requests it answers,
    accepted or not, failing or not, the articles it held are still there, in
    the same places, and every bucket of the index still begins with what it
    held: articles and index entries are only ever added at the end. *)
Theorem serve_store_grows (rs : list request) (w : world) :
  articles (this w) `prefix_of` articles (this (serve rs w))
  ∧ ∀ k, bucket (Index.keywords (index (this w))) k
           `prefix_of` bucket (Index.keywords (index (this (serve rs w)))) k
         ∧ bucket (Index.tags (index (this w))) k
             `prefix_of` bucket (Index.tags (index (this (serve rs w)))) k.
Proof. apply serve_grows. Qed.

(** Only an accepted [POST /articles] changes anything.  A [POST] without
    title or content, a search (with or without a query, whatever its terms)
    and a fetch by identifier leave the engine and the file as they were. *)
Theorem only_accepted_adds_write (r : request) (w : world) :
  accepted_add r = false → exec (handle r) w = w.
Proof. apply handle_read_run. Qed.

Lemma only_accepted_adds_write_witness :
  exec (handle (SearchArticles (Some "cats  (dogs") None)) example_world = example_world.
Proof.
  apply (only_accepted_adds_write (SearchArticles (Some "cats  (dogs") None) example_world).
  reflexivity.
Defined.



(** ** Loading *)

(** [loadArticles] never fails and never writes the file: a missing file and
    a throw while the index is rebuilt are both caught.  With no file the
    engine is left as it was. *)
Theorem loadArticles_never_fails (w : world) :
  eval loadArticles w = Normal tt
  ∧ file (exec loadArticles w) = file w
  ∧ (file w = None → exec loadArticles w = w).
Proof.
  unfold eval, exec. rewrite loadArticles_run.
  destruct (file w) as [data|] eqn:Ef; cbn [fst snd file]; auto.
  repeat split; auto. discriminate.
Qed.

(** Loading a file replaces the store by the articles of the file and, when
    none of their keywords and lowercased tags is a property name of
    [Object.prototype], rebuilds the index exactly: every bucket holds the
    identifiers of the loaded articles that have the key, in file order, one
    for each occurrence, whatever the index held before. *)
Theorem loadArticles_rebuilds_index (w : world) (data : list Json.article) :
  file w = Some data →
  Forall (λ a, Forall plain_key (index_keys a)) (parse_article <$> data) →
  articles (this (exec loadArticles w)) = parse_article <$> data
  ∧ exact_index (this (exec loadArticles w)).
Proof.
  intros Hf Hl. unfold exec. rewrite loadArticles_run, Hf. cbn [snd this articles].
  split; [reflexivity|]. intros k. cbn [index articles].
  assert (Ht : tidy_index (Index.mk ∅ ∅)) by (split; apply tidy_empty).
  destruct (index_all_exact (parse_article <$> data) (Index.mk ∅ ∅) k
              (index_all_outcome _ _ Ht Hl)) as [-> ->].
  unfold bucket. cbn [Index.keywords Index.tags]. rewrite !lookup_empty. auto.
Qed.

Lemma loadArticles_rebuilds_index_witness :
  articles (this (exec loadArticles (fresh (file example_world))))
  = parse_article <$> (stringify_article <$> [cats_article; dog_article])
  ∧ exact_index (this (exec loadArticles (fresh (file example_world)))).
Proof.
  apply (loadArticles_rebuilds_index (fresh (file example_world))
           (stringify_article <$> [cats_article; dog_article])).
  - vm_compute. reflexivity.
  - apply (bool_decide_unpack _). vm_compute. exact I.
Defined.

(** ** The index stays exact *)

Lemma handle_exact (r : request) (w : world) :
  exact_index (this w) →
  eval (handle r) w ≠ Normal internal_error →
  exact_index (this (exec (handle r) w)).
Proof.
  intros Hw. destruct (accepted_add r) eqn:Er;
    [|rewrite handle_read_run by assumption; intros; exact Hw].
  destruct r as [b now fs_ok| |]; try discriminate.
  cbn [accepted_add] in Er. apply negb_true_iff in Er.
  unfold eval, exec. rewrite (handle_post_run b now fs_ok w Er).
  set (a := new_article _ _ _ _ _). pose proof (λ k, index_with_exact a (index (this w)) k) as Ha.
  pose proof (index_with_not_beyond a (index (this w))) as Hb.
  destruct (index_with a (index (this w))) as [[[]| |] ix']; cbn [fst snd] in *.
  - intros _ k. cbn [this articles index]. rewrite !postings_snoc.
    destruct (Ha k eq_refl) as [-> ->]. destruct (Hw k) as [-> ->]. auto.
  - intros H. contradiction H. reflexivity.
  - congruence.
Qed.

Lemma answers_snoc (rs : list request) (r : request) (w : world) :
  answers (rs ++ [r]) w = answers rs w ++ [eval (handle r) (serve rs w)].
Proof.
  revert w. induction rs as [|r' rs IH]; intros w; [reflexivity|].
  cbn [app answers]. rewrite IH. reflexivity.
Qed.

Lemma serve_exact (rs : list request) (w : world) :
  exact_index (this w) →
  Forall (λ c, c ≠ Normal internal_error) (answers rs w) →
  exact_index (this (serve rs w)).
Proof.
  intros Hw. induction rs as [|r rs IH] using rev_ind; [intros _; exact Hw|].
  rewrite answers_snoc, serve_snoc, Forall_app, Forall_singleton. intros [Hrs Hr].
  apply handle_exact; auto.
Qed.

Lemma start_exact : exact_index (this (exec loadArticles (fresh None))).
Proof. intros k. split; reflexivity. Qed.

(** In a process started without a file, as long as no request has been
    answered 500 the index is exact for the store: the bucket of a key holds
    the identifiers of the stored articles that have the key among their
    keywords (or lowercased tags), in store order, once per occurrence. *)
Theorem served_exact_index (rs : list request) :
  Forall (λ c, c ≠ Normal internal_error) (answers rs (exec loadArticles (fresh None))) →
  exact_index (this (serve rs (exec loadArticles (fresh None)))).
Proof. apply serve_exact, start_exact. Qed.

Lemma served_exact_index_witness :
  exact_index (this (serve [PostArticle fish_body 3000 true; SearchArticles None None]
                       (exec loadArticles (fresh None)))).
Proof.
  apply (served_exact_index [PostArticle fish_body 3000 true; SearchArticles None None]).
  vm_compute. repeat constructor; discriminate.
Defined.

(** ** Identifiers in a process started without a file *)

Lemma handle_sequential (r : request) (w : world) :
  sequential_ids (this w) → sequential_ids (this (exec (handle r) w)).
Proof.
  intros Hw. destruct (accepted_add r) eqn:Er; [|rewrite handle_read_run by assumption; exact Hw].
  destruct r as [b now fs_ok| |]; try discriminate.
  cbn [accepted_add] in Er. apply negb_true_iff in Er.
  assert (He : ∀ ix, sequential_ids
                 (mkEngine (articles (this w)
                            ++ [new_article (default "" (Body.title b))
                                  (default "" (Body.content b)) (Body.tags b) now w])
                           ix (number_succ (nextId (this w))))).
  { intros ix. destruct Hw as [Hn Hids]. unfold sequential_ids. cbn [articles nextId].
    rewrite length_app, Hn. cbn [length number_succ]. split; [f_equal; lia|].
    rewrite fmap_app, Hids. cbn [fmap list_fmap new_article Article.id]. rewrite Hn.
    replace (Z.of_nat (length (articles (this w)) + 1))
      with (Z.of_nat (length (articles (this w))) + 1) by lia.
    rewrite seqZ_app by lia. rewrite fmap_app. f_equal.
    rewrite (seqZ_cons _ 1) by lia. cbn. do 3 f_equal. lia. }
  unfold exec. rewrite (handle_post_run b now fs_ok w Er).
  destruct (index_with _ (index (this w))) as [[[]| |] ix']; apply He.
Qed.

Lemma serve_sequential (rs : list request) (w : world) :
  sequential_ids (this w) → sequential_ids (this (serve rs w)).
Proof.
  intros Hw. induction rs as [|r rs IH] using rev_ind; [exact Hw|].
  rewrite serve_snoc. apply handle_sequential, IH.
Qed.

Lemma start_sequential : sequential_ids (this (exec loadArticles (fresh None))).
Proof. split; reflexivity. Qed.

Lemma find_sequential (l : list Article.t) (m z : Z) :
  Article.id <$> l = (λ z, Num (Int z)) <$> seqZ m (Z.of_nat (length l)) →
  List.find (λ a, bool_decide (Article.id a = Num (Int z))) l
  = if decide (m ≤ z) then l !! Z.to_nat (z - m) else None.
Proof.
  revert m. induction l as [|a l IH]; intros m Hl.
  - cbn. case_decide; reflexivity.
  - cbn [length] in Hl. rewrite (seqZ_cons m) in Hl by lia. rewrite !fmap_cons in Hl.
    injection Hl as Ha Hl.
    replace (Z.pred (Z.of_nat (S (length l)))) with (Z.of_nat (length l)) in Hl by lia.
    cbn [List.find]. rewrite Ha. case_bool_decide as Hz.
    + injection Hz as <-. rewrite decide_True by lia. rewrite Z.sub_diag. reflexivity.
    + rewrite (IH _ Hl). assert (m ≠ z) by congruence.
      destruct (decide (Z.succ m ≤ z)) as [Hle|Hgt].
      * rewrite decide_True by lia.
        replace (Z.to_nat (z - m)) with (S (Z.to_nat (z - Z.succ m))) by lia. reflexivity.
      * rewrite decide_False by lia. reflexivity.
Qed.

Lemma get_sequential (id : string) (z : Z) (w : world) :
  sequential_ids (this w) →
  parseInt id = Normal (Parsed z) →
  eval (handle (GetArticle id)) w
  = Normal (match nth_article z (articles (this w)) with
            | Some a => mkResponse 200 (ArticleJson a)
            | None => not_found
            end).
Proof.
  intros [_ Hids] Hp. unfold eval, handle, express. rewrite get_articles_id_run, Hp.
  rewrite (find_sequential _ 1 z Hids). unfold nth_article.
  destruct (decide (1 ≤ z)); [|reflexivity].
  destruct (articles (this w) !! Z.to_nat (z - 1)); reflexivity.
Qed.

(** In a process started without a file, whatever requests it has answered,
    the stored articles carry the identifiers 1, 2, ..., n in store order and
    the counter stands at n + 1: a request answered 500 uses up an identifier
    like one answered 201. *)
Theorem served_identifiers (rs : list request) :
  sequential_ids (this (serve rs (exec loadArticles (fresh None)))).
Proof. apply serve_sequential, start_sequential. Qed.

(** In a process started without a file, [GET /articles/:id] with a
    segment that [parseInt] reads as the integer [z] answers 200 with the
    [z]-th article added, and 404 when [z] is below 1 or above the number of
    articles added. *)
Theorem get_articles_id_served (rs : list request) (id : string) (z : Z) :
  parseInt id = Normal (Parsed z) →
  eval (handle (GetArticle id)) (serve rs (exec loadArticles (fresh None)))
  = Normal (match nth_article z (articles (this (serve rs (exec loadArticles (fresh None))))) with
            | Some a => mkResponse 200 (ArticleJson a)
            | None => not_found
            end).
Proof. intros Hp. apply get_sequential; [apply serve_sequential, start_sequential|exact Hp]. Qed.

Lemma get_articles_id_served_witness :
  eval (handle (GetArticle "2"))
       (serve [PostArticle constructor_body 1000 true; PostArticle fish_body 3000 false]
              (exec loadArticles (fresh None)))
  = Normal (match nth_article 2
                    (articles (this (serve [PostArticle constructor_body 1000 true;
                                            PostArticle fish_body 3000 false]
                                       (exec loadArticles (fresh None))))) with
            | Some a => mkResponse 200 (ArticleJson a)
            | None => not_found
            end).
Proof.
  apply (get_articles_id_served
           [PostArticle constructor_body 1000 true; PostArticle fish_body 3000 false] "2" 2).
  vm_compute. reflexivity.
Defined.

(** An article answered 201 stays fetchable: in a process started without a
    file, after any further requests, [GET /articles/:id] with the decimal
    text of the article's identifier answers 200 with that article. *)
Theorem post_then_get (rs rs' : list request) (b : Body.t) (now : Z) (fs_ok : bool)
    (a : Article.t) :
  eval (handle (PostArticle b now fs_ok)) (serve rs (exec loadArticles (fresh None)))
  = Normal (mkResponse 201 (ArticleJson a)) →
  Z.of_nat (length (articles (this (serve rs (exec loadArticles (fresh None))))))
  < 9007199254740991 →
  ∃ z, Article.id a = Num (Int z)
       ∧ eval (handle (GetArticle (Number_toString (Parsed z))))
              (serve (rs ++ PostArticle b now fs_ok :: rs') (exec loadArticles (fresh None)))
         = Normal (mkResponse 200 (ArticleJson a)).
Proof.
  set (w := serve rs (exec loadArticles (fresh None))). intros Hpost Hlen.
  pose proof (serve_sequential rs _ start_sequential) as Hseq. fold w in Hseq.
  assert (Hg : falsy (Body.title b) || falsy (Body.content b) = false).
  { revert Hpost. unfold eval, handle, express, post_articles.
    destruct (falsy (Body.title b) || falsy (Body.content b)); [discriminate|reflexivity]. }
  pose proof (handle_post_run b now fs_ok w Hg) as Hrun. cbv zeta in Hrun.
  set (a' := new_article _ _ _ _ _) in Hrun.
  assert (Ha : a' = a ∧ articles (this (exec (handle (PostArticle b now fs_ok)) w))
                        = articles (this w) ++ [a]).
  { unfold eval in Hpost. unfold exec. rewrite Hrun in *.
    destruct (fst (index_with a' (index (this w)))) as [[]| |]; cbn [fst snd] in *;
      try discriminate. injection Hpost as ->. split; reflexivity. }
  destruct Ha as [<- Hart].
  exists (Z.of_nat (length (articles (this w))) + 1). split.
  { unfold a', new_article. cbn [Article.id]. rewrite (proj1 Hseq). reflexivity. }
  replace (serve (rs ++ PostArticle b now fs_ok :: rs') (exec loadArticles (fresh None)))
    with (serve rs' (exec (handle (PostArticle b now fs_ok)) w))
    by (unfold serve, w; rewrite foldl_app; reflexivity).
  rewrite (get_sequential _ (Z.of_nat (length (articles (this w))) + 1)).
  - destruct (serve_grows rs' (exec (handle (PostArticle b now fs_ok)) w)) as [[rest ->] _].
    unfold nth_article. rewrite decide_True by lia. rewrite Hart.
    replace (Z.to_nat (Z.of_nat (length (articles (this w))) + 1 - 1))
      with (length (articles (this w)) + 0)%nat by lia.
    rewrite <- app_assoc, lookup_app_r by lia.
    replace (length (articles (this w)) + 0 - length (articles (this w)))%nat with 0%nat by lia.
    reflexivity.
  - apply serve_sequential, handle_sequential, Hseq.
  - apply (parseInt_Number_toString (Parsed _)). unfold safe_integer. apply Z.leb_le. lia.
Qed.

Lemma post_then_get_witness :
  ∃ z, Article.id (Article.mk (Num (Int 2)) "Fish" "Fish swim" [] 3000) = Num (Int z)
       ∧ eval (handle (GetArticle (Number_toString (Parsed z))))
              (serve ([PostArticle constructor_body 1000 true]
                      ++ PostArticle fish_body 3000 true :: [SearchArticles (Some "fish") None])
                 (exec loadArticles (fresh None)))
         = Normal (mkResponse 200 (ArticleJson (Article.mk (Num (Int 2)) "Fish" "Fish swim" [] 3000))).
Proof.
  apply (post_then_get [PostArticle constructor_body 1000 true] [SearchArticles (Some "fish") None]
           fish_body 3000 true (Article.mk (Num (Int 2)) "Fish" "Fish swim" [] 3000)).
  - vm_compute. reflexivity.
  - vm_compute. reflexivity.
Defined.

(** ** What a search finds *)

Lemma count_key_pos (k : string) (ks : list string) : count_key k ks ≠ 0%nat ↔ k ∈ ks.
Proof.
  unfold count_key. split.
  - intros H. destruct (filter (λ x, x = k) ks) as [|x l] eqn:E; [contradiction|].
    assert (Hx : x ∈ filter (λ x, x = k) ks) by (rewrite E; left).
    apply list_elem_of_filter in Hx as [-> Hx]. exact Hx.
  - intros Hk H. apply length_zero_iff_nil in H.
    assert (Hx : k ∈ filter (λ x, x = k) ks) by (apply list_elem_of_filter; auto).
    rewrite H in Hx. inversion Hx.
Qed.

Lemma elem_of_concat {A} (x : A) (ls : list (list A)) :
  x ∈ concat ls ↔ ∃ l, x ∈ l ∧ l ∈ ls.
Proof.
  induction ls as [|l ls IH]; cbn [concat].
  - split; [intros H; inversion H|intros (l & _ & H); inversion H].
  - rewrite elem_of_app, IH. split.
    + intros [H|(l' & Hx & Hl)]; [exists l; split; [exact H|left]|].
      exists l'. split; [exact Hx|right; exact Hl].
    + intros (l' & Hx & Hl). apply elem_of_cons in Hl as [->|Hl]; eauto.
Qed.

Lemma elem_of_postings (keys : Article.t → list string) (k : string) (l : list Article.t)
    (i : idval) :
  i ∈ postings keys k l ↔ ∃ a, a ∈ l ∧ Article.id a = i ∧ k ∈ keys a.
Proof.
  unfold postings. rewrite elem_of_concat. split.
  - intros (ids & Hi & Hids). apply list_elem_of_fmap in Hids as (a & -> & Ha).
    apply elem_of_replicate in Hi as [-> Hn]. exists a. rewrite <- count_key_pos. auto.
  - intros (a & Ha & <- & Hk). exists (replicate (count_key k (keys a)) (Article.id a)). split.
    + apply elem_of_replicate. rewrite count_key_pos. auto.
    + apply list_elem_of_fmap. eauto.
Qed.

Lemma NoDup_fmap_eq {A B} (f : A → B) (l : list A) (x y : A) :
  NoDup (f <$> l) → x ∈ l → y ∈ l → f x = f y → x = y.
Proof.
  induction l as [|z l IH]; intros Hnd Hx Hy Hf; [inversion Hx|].
  rewrite fmap_cons in Hnd. apply NoDup_cons in Hnd as [Hz Hnd].
  apply elem_of_cons in Hx as [->|Hx]; apply elem_of_cons in Hy as [->|Hy]; auto.
  - contradiction Hz. rewrite Hf. apply list_elem_of_fmap. eauto.
  - contradiction Hz. rewrite <- Hf. apply list_elem_of_fmap. eauto.
Qed.

Lemma sequential_NoDup (e : engine) : sequential_ids e → NoDup (Article.id <$> articles e).
Proof.
  intros [_ ->]. apply NoDup_fmap_2; [|apply NoDup_seqZ]. intros x y [=]. assumption.
Qed.

Lemma search_exact (query sortBy : string) (w : world) (results : list scored) :
  exact_index (this w) →
  NoDup (Article.id <$> articles (this w)) →
  eval (searchArticles query sortBy) w = Normal results →
  ∀ a, a ∈ doc <$> results
       ↔ a ∈ articles (this w) ∧ ∃ term, term ∈ query_tokens query ∧ term ∈ index_keys a.
Proof.
  intros Hex Hnd H a.
  destruct (search_candidates _ _ _ _ H) as (ids & _ & Hids & Hp).
  rewrite Hp, list_elem_of_filter, Hids. unfold index_keys. split.
  - intros [(term & Ht & Hb) Ha]. split; [exact Ha|]. exists term. split; [exact Ht|].
    destruct (Hex term) as [Ek Et]. rewrite Ek, Et, !elem_of_postings in Hb.
    apply elem_of_app.
    destruct Hb as [(a' & Ha' & Hid & Hk)|(a' & Ha' & Hid & Hk)];
      rewrite (NoDup_fmap_eq Article.id _ a' a Hnd Ha' Ha Hid) in Hk; auto.
  - intros [Ha (term & Ht & Hk)]. split; [|exact Ha]. exists term. split; [exact Ht|].
    destruct (Hex term) as [-> ->]. rewrite !elem_of_postings.
    apply elem_of_app in Hk as [Hk|Hk]; [left|right]; eauto.
Qed.

(** Search is by whole words.  In a process started without a file that has
    answered no request with 500, a search that returns gives exactly the
    stored articles that have a query token among their keywords or their
    lowercased tags: the words of the lowercased title and content, split at
    white space.  A token that only occurs inside a word of an article does
    not find it. *)
Theorem search_whole_words (rs : list request) (query sortBy : string)
    (results : list scored) :
  Forall (λ c, c ≠ Normal internal_error) (answers rs (exec loadArticles (fresh None))) →
  eval (searchArticles query sortBy) (serve rs (exec loadArticles (fresh None)))
  = Normal results →
  ∀ a, a ∈ doc <$> results
       ↔ a ∈ articles (this (serve rs (exec loadArticles (fresh None))))
         ∧ ∃ term, term ∈ query_tokens query ∧ term ∈ index_keys a.
Proof.
  intros Hrs. apply search_exact.
  - apply serve_exact; [apply start_exact|exact Hrs].
  - apply sequential_NoDup, serve_sequential, start_sequential.
Qed.

Lemma search_whole_words_witness :
  dog_article ∈ doc <$> [mkScored dog_article 2]
  ↔ dog_article ∈ articles (this (serve example_requests (exec loadArticles (fresh None))))
    ∧ ∃ term, term ∈ query_tokens "dog" ∧ term ∈ index_keys dog_article.
Proof.
  apply (search_whole_words example_requests "dog" "relevance" [mkScored dog_article 2]).
  - vm_compute. repeat constructor; discriminate.
  - vm_compute. reflexivity.
Defined.

(** ** Restarting *)

Lemma tidy_bucket_eq (o1 o2 : gmap string (list idval)) :
  tidy o1 → tidy o2 → (∀ k, bucket o1 k = bucket o2 k) → o1 = o2.
Proof.
  intros H1 H2 Hb. apply map_eq. intros k. specialize (Hb k). unfold bucket in Hb.
  destruct (o1 !! k) as [ids1|] eqn:E1; destruct (o2 !! k) as [ids2|] eqn:E2;
    simpl in Hb.
  - congruence.
  - destruct (H1 k ids1 E1) as [_ Hne]. congruence.
  - destruct (H2 k ids2 E2) as [_ Hne]. congruence.
  - reflexivity.
Qed.

Lemma Math_max_seqZ (m : Z) (n : nat) :
  Math_max (Int <$> seqZ m (Z.of_nat (S n))) = Int (m + Z.of_nat n).
Proof.
  revert m. induction n as [|n IH]; intros m.
  - rewrite (seqZ_cons m) by lia. rewrite seqZ_nil by lia. cbn. f_equal. lia.
  - rewrite (seqZ_cons m) by lia.
    replace (Z.pred (Z.of_nat (S (S n)))) with (Z.of_nat (S n)) by lia.
    rewrite fmap_cons. cbn [Math_max foldr]. fold (Math_max (Int <$> seqZ (Z.succ m) (Z.of_nat (S n)))).
    rewrite IH. cbn [number_max]. f_equal. lia.
Qed.

Lemma exact_keys_plain (e : engine) :
  tidy_index (index e) → exact_index e →
  Forall (λ a, Forall plain_key (index_keys a)) (articles e).
Proof.
  intros [Hk Ht] Hex. apply Forall_forall. intros a Ha. apply Forall_forall. intros k Hin.
  destruct (Hex k) as [Ek Et]. unfold index_keys in Hin. apply elem_of_app in Hin as [Hin|Hin].
  - assert (Hi : Article.id a ∈ bucket (Index.keywords (index e)) k)
      by (rewrite Ek; apply elem_of_postings; eauto).
    unfold bucket in Hi. destruct (Index.keywords (index e) !! k) as [ids|] eqn:E;
      [apply (Hk k ids E)|inversion Hi].
  - assert (Hi : Article.id a ∈ bucket (Index.tags (index e)) k)
      by (rewrite Et; apply elem_of_postings; eauto).
    unfold bucket in Hi. destruct (Index.tags (index e) !! k) as [ids|] eqn:E;
      [apply (Ht k ids E)|inversion Hi].
Qed.

Lemma restart_exact (w : world) :
  tidy_index (index (this w)) → exact_index (this w) → sequential_ids (this w) →
  articles (this w) ≠ [] →
  file w = Some (stringify_article <$> articles (this w)) →
  exec loadArticles (fresh (file w)) = w.
Proof.
  intros Ht Hex [Hn Hids] Hne Hf. unfold exec. rewrite loadArticles_run. unfold fresh at 1.
  cbn [file]. rewrite Hf. cbv zeta. cbn [snd].
  assert (Hl : parse_article <$> (stringify_article <$> articles (this w)) = articles (this w)).
  { apply parse_stringify_articles. apply Forall_forall. intros a Ha Hbad.
    assert (Hin : Article.id a ∈ Article.id <$> articles (this w))
      by (apply list_elem_of_fmap; eauto).
    rewrite Hids, Hbad in Hin. apply list_elem_of_fmap in Hin as (z & [=] & _). }
  rewrite Hl.
  assert (Hmax : number_succ (Math_max ((λ a, ToNumber (Article.id a)) <$> articles (this w)))
                 = nextId (this w)).
  { rewrite (list_fmap_compose Article.id ToNumber), Hids, <- list_fmap_compose.
    destruct (articles (this w)) as [|a l]; [contradiction|].
    change (ToNumber ∘ (λ z, Num (Int z))) with Int. cbn [length].
    rewrite Math_max_seqZ, Hn. cbn [number_succ length]. f_equal. lia. }
  rewrite Hmax.
  assert (Hix : snd (index_all (articles (this w)) (Index.mk ∅ ∅)) = index (this w)).
  { assert (Ht0 : tidy_index (Index.mk ∅ ∅)) by (split; apply tidy_empty).
    pose proof (index_all_tidy (articles (this w)) _ Ht0) as [Hk' Ht'].
    pose proof (λ k, index_all_exact (articles (this w)) (Index.mk ∅ ∅) k
                       (index_all_outcome _ _ Ht0 (exact_keys_plain _ Ht Hex))) as Hex'.
    destruct Ht as [Hk Htg].
    destruct (snd (index_all (articles (this w)) (Index.mk ∅ ∅))) as [kw' tg'].
    destruct (index (this w)) as [kw tg] eqn:Ei. cbn [Index.keywords Index.tags] in *. f_equal.
    - apply tidy_bucket_eq; auto. intros k. destruct (Hex' k) as [-> _].
      destruct (Hex k) as [Hb _]. rewrite Ei in Hb. cbn in Hb. rewrite Hb.
      unfold bucket. rewrite lookup_empty. reflexivity.
    - apply tidy_bucket_eq; auto. intros k. destruct (Hex' k) as [_ ->].
      destruct (Hex k) as [_ Hb]. rewrite Ei in Hb. cbn in Hb. rewrite Hb.
      unfold bucket. rewrite lookup_empty. reflexivity. }
  rewrite Hix. destruct w as [[l ix n] f]. cbn in *. subst f. reflexivity.
Qed.

(** Restarting restores the engine.  Take a process started without a file
    that has answered no request with 500, holds at least one article, and
    whose file is the document of its store (the last write succeeded).  A new
    process that loads that file is in the same state: the same articles, the
    same index, bucket for bucket, and the same counter. *)
Theorem restart_restores (rs : list request) :
  Forall (λ c, c ≠ Normal internal_error) (answers rs (exec loadArticles (fresh None))) →
  articles (this (serve rs (exec loadArticles (fresh None)))) ≠ [] →
  file (serve rs (exec loadArticles (fresh None)))
  = Some (stringify_article <$> articles (this (serve rs (exec loadArticles (fresh None))))) →
  exec loadArticles (fresh (file (serve rs (exec loadArticles (fresh None)))))
  = serve rs (exec loadArticles (fresh None)).
Proof.
  intros Hrs Hne Hf. apply restart_exact; auto.
  - apply reachable_tidy, serve_reachable, reachable_start.
  - apply serve_exact; [apply start_exact|exact Hrs].
  - apply serve_sequential, start_sequential.
Qed.

Lemma restart_restores_witness :
  exec loadArticles (fresh (file (serve example_requests (exec loadArticles (fresh None)))))
  = serve example_requests (exec loadArticles (fresh None)).
Proof.
  apply (restart_restores example_requests).
  - vm_compute. repeat constructor; discriminate.
  - vm_compute. discriminate.
  - vm_compute. reflexivity.
Defined.

(** ** Property names of [Object.prototype] in a query *)

Lemma collect_matches_throws (searchTerms : list string) (acc : list idval) (w : world) :
  tidy_index (index (this w)) →
  ¬ Forall plain_key searchTerms →
  eval (collect_matches searchTerms acc) w = Throw TypeError.
Proof.
  intros [Hk Ht]. revert acc. induction searchTerms as [|t rest IH]; intros acc Hn.
  - contradiction Hn. constructor.
  - unfold eval in *. cbn [collect_matches]. unfold_M. unfold get_property.
    destruct (decide (plain_key t)) as [Hp|Hp].
    + unfold plain_key in Hp. rewrite !bool_decide_eq_false_2 by assumption.
      assert (Hrest : ¬ Forall plain_key rest) by (intros H; apply Hn; constructor; assumption).
      destruct (Index.keywords (index (this w)) !! t), (Index.tags (index (this w)) !! t);
        cbn [spread_or_empty]; apply IH, Hrest.
    + destruct (Index.keywords (index (this w)) !! t) as [ids|] eqn:E;
        [destruct (Hk t ids E); contradiction|].
      unfold plain_key in Hp. rewrite bool_decide_eq_true_2; [reflexivity|].
      destruct (decide (t ∈ Object_prototype_names)); tauto.
Qed.

(** A search for a property name of [Object.prototype] fails.  In a running
    process, a query with a token such as "constructor" or "__proto__" is
    answered 500, whatever the other tokens and the store: the lookup finds
    the inherited property, which cannot be spread.  A query of which every
    token is free of such names and of syntax characters of regular
    expressions is answered 200. *)
Theorem search_prototype_name (q : string) (sort : option string) (w : world) :
  reachable w →
  (¬ Forall plain_key (query_tokens q) →
   eval (handle (SearchArticles (Some q) sort)) w = Normal internal_error)
  ∧ (q ≠ "" →
     Forall (λ t, plain_key t ∧ literal_pattern t = true) (query_tokens q) →
     ∃ results, eval (handle (SearchArticles (Some q) sort)) w
                = Normal (mkResponse 200 (ResultsJson results))).
Proof.
  intros Hw. split.
  - intros Hn. assert (Hq : falsy (Some q) = false).
    { destruct q; [|reflexivity]. contradiction Hn.
      apply (bool_decide_unpack _). vm_compute. exact I. }
    unfold eval, handle, express, get_articles_search. rewrite Hq.
    unfold searchArticles. fold (query_tokens (default "" (Some q))). cbn [default].
    pose proof (collect_matches_throws (query_tokens q) [] w (reachable_tidy w Hw) Hn) as Hc.
    unfold eval in Hc. unfold_M.
    destruct (collect_matches (query_tokens q) [] w) as [c w']. cbn [fst] in Hc. subst c.
    reflexivity.
  - intros Hq Hall. assert (Hf : falsy (Some q) = false) by (destruct q; [contradiction|reflexivity]).
    destruct (searchArticles_completes q (default "relevance" sort) w Hall) as [results Hr].
    exists results. unfold eval, handle, express, get_articles_search in *. rewrite Hf.
    cbn [default]. unfold_M.
    destruct (searchArticles q (default "relevance" sort) w) as [c w']. cbn [fst] in Hr.
    subst c. reflexivity.
Qed.

Lemma search_prototype_name_witness :
  (¬ Forall plain_key (query_tokens "dog constructor") →
   eval (handle (SearchArticles (Some "dog constructor") None)) example_world
   = Normal internal_error)
  ∧ ("dog constructor" ≠ "" →
     Forall (λ t, plain_key t ∧ literal_pattern t = true) (query_tokens "dog constructor") →
     ∃ results, eval (handle (SearchArticles (Some "dog constructor") None)) example_world
                = Normal (mkResponse 200 (ResultsJson results))).
Proof.
  apply (search_prototype_name "dog constructor" None example_world reachable_example_world).
Defined.

(** ** What a throw leaves behind *)

Lemma push_each_app (o : gmap string (list idval)) (l1 l2 : list string) (i : idval) :
  push_each o (l1 ++ l2) i
  = match push_each o l1 i with
    | (Normal _, o') => push_each o' l2 i
    | r => r
    end.
Proof.
  revert o. induction l1 as [|k l1 IH]; intros o; [reflexivity|].
  cbn [app push_each]. destruct (push_bucket o k i); [apply IH|reflexivity..].
Qed.

Lemma push_each_stops (o : gmap string (list idval)) (pre rest : list string) (bad : string)
    (i : idval) :
  tidy o → Forall plain_key pre → ¬ plain_key bad →
  push_each o (pre ++ bad :: rest) i = (Throw TypeError, snd (push_each o pre i))
  ∧ ∀ k, bucket (snd (push_each o pre i)) k = bucket o k ++ replicate (count_key k pre) i.
Proof.
  intros Ho Hpre Hbad. rewrite push_each_app.
  pose proof (push_each_outcome o pre i Ho) as Hout. rewrite decide_True in Hout by assumption.
  pose proof (push_each_tidy o pre i Ho) as Ht.
  destruct (push_each o pre i) as [c o'] eqn:E. cbn [fst snd] in *. subst c. split.
  - cbn [push_each]. rewrite push_bucket_run by assumption.
    rewrite decide_False by assumption. reflexivity.
  - apply (push_each_exact _ _ _ _ E).
Qed.

(** What a request answered 500 leaves in the index.  When the first
    property name of [Object.prototype] among the keywords of the new article
    comes after the keywords [pre], the article is stored, its identifier is
    in the buckets of the keywords [pre], once per occurrence, and nowhere
    else: the later keywords and all the tags are not indexed.  The article is
    found by the words before the offending one only. *)
Theorem failed_add_partial_index (b : Body.t) (now : Z) (fs_ok : bool) (w : world)
    (pre rest : list string) (bad : string) :
  reachable w →
  falsy (Body.title b) || falsy (Body.content b) = false →
  article_keywords (new_article (default "" (Body.title b)) (default "" (Body.content b))
                      (Body.tags b) now w) = pre ++ bad :: rest →
  Forall plain_key pre → ¬ plain_key bad →
  eval (handle (PostArticle b now fs_ok)) w = Normal internal_error
  ∧ (∀ k, bucket (Index.keywords (index (this (exec (handle (PostArticle b now fs_ok)) w)))) k
          = bucket (Index.keywords (index (this w))) k
            ++ replicate (count_key k pre) (Num (nextId (this w))))
  ∧ Index.tags (index (this (exec (handle (PostArticle b now fs_ok)) w)))
    = Index.tags (index (this w)).
Proof.
  intros Hw Hg Hkeys Hpre Hbad. unfold eval, exec. rewrite (handle_post_run b now fs_ok w Hg).
  set (a := new_article _ _ _ _ _) in *. unfold index_with. rewrite Hkeys.
  destruct (push_each_stops (Index.keywords (index (this w))) pre rest bad (Article.id a)
              (proj1 (reachable_tidy w Hw)) Hpre Hbad) as [-> Hb].
  cbn [fst snd this index Index.keywords Index.tags]. auto.
Qed.

Lemma failed_add_partial_index_witness :
  eval (handle (PostArticle (Body.mk (Some "Dog constructor") (Some "kit") (Some ["toys"]))
                  3000 true)) example_world = Normal internal_error
  ∧ (∀ k, bucket (Index.keywords (index (this (exec (handle
             (PostArticle (Body.mk (Some "Dog constructor") (Some "kit") (Some ["toys"]))
                3000 true)) example_world)))) k
          = bucket (Index.keywords (index (this example_world))) k
            ++ replicate (count_key k ["dog"]) (Num (nextId (this example_world))))
  ∧ Index.tags (index (this (exec (handle
       (PostArticle (Body.mk (Some "Dog constructor") (Some "kit") (Some ["toys"]))
          3000 true)) example_world)))
    = Index.tags (index (this example_world)).
Proof.
  apply (failed_add_partial_index
           (Body.mk (Some "Dog constructor") (Some "kit") (Some ["toys"])) 3000 true
           example_world ["dog"] ["kit"] "constructor" reachable_example_world).
  - reflexivity.
  - vm_compute. reflexivity.
  - apply (bool_decide_unpack _). vm_compute. exact I.
  - apply (bool_decide_unpack _). vm_compute. exact I.
Defined.

Lemma index_all_sound (l : list Article.t) (ix : Index.t) (k : string) (j : idval) :
  j ∈ bucket (Index.keywords (snd (index_all l ix))) k
  ∨ j ∈ bucket (Index.tags (snd (index_all l ix))) k →
  j ∈ bucket (Index.keywords ix) k ∨ j ∈ bucket (Index.tags ix) k ∨ j ∈ Article.id <$> l.
Proof.
  revert ix. induction l as [|a l IH]; intros ix; [tauto|].
  cbn [index_all]. destruct (index_with_sound a ix k j) as [Hk Ht].
  assert (Ha : j ∈ bucket (Index.keywords (snd (index_with a ix))) k
               ∨ j ∈ bucket (Index.tags (snd (index_with a ix))) k →
               j ∈ bucket (Index.keywords ix) k ∨ j ∈ bucket (Index.tags ix) k
               ∨ j ∈ Article.id <$> a :: l).
  { rewrite fmap_cons, elem_of_cons. intros [H|H]; [apply Hk in H|apply Ht in H]; tauto. }
  destruct (index_with a ix) as [[[]| |] ix']; cbn [snd] in *; try exact Ha.
  intros H. apply IH in H. rewrite fmap_cons, elem_of_cons in *. tauto.
Qed.

Lemma index_all_stops (l1 l2 : list Article.t) (a : Article.t) (ix : Index.t) :
  tidy_index ix →
  Forall (λ a, Forall plain_key (index_keys a)) l1 →
  ¬ Forall plain_key (index_keys a) →
  snd (index_all (l1 ++ a :: l2) ix) = snd (index_all (l1 ++ [a]) ix).
Proof.
  intros Hix Hl1 Ha.
  replace (l1 ++ a :: l2) with ((l1 ++ [a]) ++ l2) by (rewrite <- app_assoc; reflexivity).
  assert (Hthrow : fst (index_all (l1 ++ [a]) ix) = Throw TypeError).
  { rewrite index_all_app. pose proof (index_all_outcome l1 ix Hix Hl1) as H1.
    pose proof (index_all_tidy l1 ix Hix) as Ht.
    destruct (index_all l1 ix) as [c ix1]. cbn [fst snd] in *. subst c.
    rewrite index_with_outcome by assumption. rewrite decide_False by assumption. reflexivity. }
  revert Hthrow. generalize (l1 ++ [a]). clear. intros l. revert ix.
  induction l as [|b l IH]; intros ix; [discriminate|].
  cbn [app index_all]. destruct (index_with b ix) as [[[]| |] ix']; auto.
Qed.

(** Loading stops indexing at a property name of [Object.prototype].  When
    the articles of the file before some article have none among their
    keywords and lowercased tags, and that article has one, the whole file is
    stored, but the index holds identifiers of the articles up to that one
    only: an article behind it, unless it shares an identifier with them, is
    in no bucket and no search finds it. *)
Theorem loadArticles_stops_indexing (w : world) (d1 d2 : list Json.article) (j : Json.article) :
  file w = Some (d1 ++ j :: d2) →
  Forall (λ a, Forall plain_key (index_keys a)) (parse_article <$> d1) →
  ¬ Forall plain_key (index_keys (parse_article j)) →
  articles (this (exec loadArticles w)) = parse_article <$> (d1 ++ j :: d2)
  ∧ ∀ k i, i ∈ bucket (Index.keywords (index (this (exec loadArticles w)))) k
           ∨ i ∈ bucket (Index.tags (index (this (exec loadArticles w)))) k →
           i ∈ Article.id <$> (parse_article <$> (d1 ++ [j])).
Proof.
  intros Hf Hd1 Hj. unfold exec. rewrite loadArticles_run, Hf. cbn [snd this articles index].
  split; [reflexivity|]. intros k i.
  rewrite fmap_app, fmap_cons, index_all_stops; try assumption; [|split; apply tidy_empty].
  intros H. apply index_all_sound in H. rewrite fmap_app.
  unfold bucket in H. cbn [Index.keywords Index.tags] in H. rewrite !lookup_empty in H.
  cbn in H. destruct H as [H|[H|H]]; [inversion H|inversion H|exact H].
Qed.

Lemma loadArticles_stops_indexing_witness :
  articles (this (exec loadArticles
                    (fresh (Some ([stringify_article cats_article]
                                  ++ stringify_article constructor_article
                                     :: [stringify_article fish_article])))))
  = parse_article <$> ([stringify_article cats_article]
                       ++ stringify_article constructor_article
                          :: [stringify_article fish_article])
  ∧ ∀ k i,
      i ∈ bucket (Index.keywords (index (this (exec loadArticles
             (fresh (Some ([stringify_article cats_article]
                           ++ stringify_article constructor_article
                              :: [stringify_article fish_article]))))))) k
      ∨ i ∈ bucket (Index.tags (index (this (exec loadArticles
               (fresh (Some ([stringify_article cats_article]
                             ++ stringify_article constructor_article
                                :: [stringify_article fish_article]))))))) k →
      i ∈ Article.id <$> (parse_article <$> ([stringify_article cats_article]
                                             ++ [stringify_article constructor_article])).
Proof.
  apply (loadArticles_stops_indexing
           (fresh (Some ([stringify_article cats_article]
                         ++ stringify_article constructor_article
                            :: [stringify_article fish_article])))
           [stringify_article cats_article] [stringify_article fish_article]
           (stringify_article constructor_article)).
  - reflexivity.
  - apply (bool_decide_unpack _). vm_compute. exact I.
  - apply (bool_decide_unpack _). vm_compute. exact I.
Defined.

(** ** Words and scores *)








(** Letter case in a query is ignored: a query and its lowercase text are
    answered alike, in the answer and in the state left. *)
Theorem search_case_insensitive (q : string) (sort : option string) (w : world) :
  handle (SearchArticles (Some (toLowerCase q)) sort) w = handle (SearchArticles (Some q) sort) w.
Proof.
  unfold handle, express, get_articles_search.
  assert (Hf : falsy (Some (toLowerCase q)) = falsy (Some q)) by (destruct q; reflexivity).
  rewrite Hf. destruct (falsy (Some q)); [reflexivity|].
  cbn [default from_option]. unfold id, mbind, M_bind, searchArticles.
  rewrite toLowerCase_idempotent.
  reflexivity.
Qed.

Lemma has_space_toLowerCase (s : string) : has_space (toLowerCase s) = has_space s.
Proof.
  induction s as [|c s IH]; [reflexivity|]. cbn [toLowerCase has_space].
  rewrite is_space_lower_char, IH. reflexivity.
Qed.

(** A tag that holds white space cannot be searched for: it is indexed
    under its whole lowercased text, and no token of any query holds white
    space, so that no query ever looks up its bucket. *)
Theorem spaced_tag_never_looked_up (query tag : string) :
  has_space tag = true →
  Forall (λ term, term ≠ toLowerCase tag) (query_tokens query).
Proof.
  intros Htag. eapply Forall_impl; [apply query_tokens_characters|].
  cbn beta. intros term [_ Hs] ->. rewrite has_space_toLowerCase in Hs. congruence.
Qed.

Lemma spaced_tag_never_looked_up_witness :
  Forall (λ term, term ≠ toLowerCase "Machine Learning") (query_tokens "machine learning").
Proof. apply (spaced_tag_never_looked_up "machine learning" "Machine Learning"). reflexivity. Defined.

(** ** Title and content in the score *)







